(** * yt-liveread: the chat-to-speech pipeline

    A shallow embedding of [yt_liveread/config.py], [chat_reader.py],
    [tts_speaker.py] and [main.py].

    - Python [int] is [Z]; [str] is [string], one [ascii] per code point
      (code points up to 255); [Optional[T]] and [dict.get] are [option].
    - [queue.Queue] and [threading.Event] are modelled by their contents
      and their flag.  Each thread is modelled against the other threads:
      the producer's bounded [put] and the orchestrator's [input()] take
      what the environment does while they block; the speech worker is a
      transition system whose events interleave its own steps with the
      steps of the other threads and the expiry of its bounded waits. *)

From Stdlib Require Import String Ascii List ZArith Bool Lia Arith.
Import ListNotations.
Local Open Scope string_scope.
Local Open Scope Z_scope.

(** ** Python strings *)

Module Str.

(** [str.isspace] / the regex class [\s] on code points below 256:
    TAB..CR, FS..US, space, NEL and NBSP. *)
Definition isspace (c : ascii) : bool :=
  let n := nat_of_ascii c in
  ((9 <=? n) && (n <=? 13) || (28 <=? n) && (n <=? 32)
   || (n =? 133) || (n =? 160))%nat.

Definition len (s : string) : Z := Z.of_nat (String.length s).

(** [s[:stop]]: a negative [stop] counts from the end. *)
Definition slice_to (s : string) (stop : Z) : string :=
  if stop <? 0
  then substring 0 (Z.to_nat (len s + stop)) s
  else substring 0 (Z.to_nat stop) s.

(** [s[n:]] for a natural [n]. *)
Fixpoint drop (n : nat) (s : string) : string :=
  match n, s with
  | S k, String _ r => drop k r
  | _, _ => s
  end.

(** If [s] starts with the literal [p], what follows it. *)
Fixpoint strip_prefix (p s : string) : option string :=
  match p, s with
  | EmptyString, _ => Some s
  | String a p', String b s' =>
      if Ascii.eqb a b then strip_prefix p' s' else None
  | String _ _, EmptyString => None
  end.

(** Length of the longest run of [\S] characters at the start of [s]. *)
Fixpoint nonspace_run (s : string) : nat :=
  match s with
  | EmptyString => O
  | String c r => if isspace c then O else S (nonspace_run r)
  end.

(** [re.match(r"http\S+", s)]: the length of the (greedy) match at the
    start of [s], if there is one. *)
Definition url_pattern (s : string) : option nat :=
  match strip_prefix "http" s with
  | Some r =>
      match nonspace_run r with
      | O => None
      | S n => Some (4 + S n)%nat
      end
  | None => None
  end.

(** Whether [r"http\S+"] matches at the start of [s], read off its first
    five characters. *)
Definition url_at (s : string) : bool :=
  match strip_prefix "http" s with
  | Some (String c _) => negb (isspace c)
  | _ => false
  end.

(** [re.sub(pat, repl, s)] for a pattern without empty matches: scan left
    to right; where the pattern matches, emit [repl] and resume after the
    match; elsewhere copy the character.  [skip] counts the characters of
    the current match that are still to be passed over. *)
Fixpoint re_sub_from (pat : string -> option nat) (repl : string)
         (skip : nat) (s : string) : string :=
  match s with
  | EmptyString => EmptyString
  | String c r =>
      match skip with
      | S k => re_sub_from pat repl k r
      | O =>
          match pat s with
          | Some (S n) => repl ++ re_sub_from pat repl n r
          | _ => String c (re_sub_from pat repl O r)
          end
      end
  end.

Definition re_sub (pat : string -> option nat) (repl s : string) : string :=
  re_sub_from pat repl O s.

(** [str.strip()]. *)
Fixpoint lstrip (s : string) : string :=
  match s with
  | String c r => if isspace c then lstrip r else s
  | EmptyString => EmptyString
  end.

Fixpoint rstrip (s : string) : string :=
  match s with
  | EmptyString => EmptyString
  | String c r =>
      match rstrip r with
      | EmptyString => if isspace c then EmptyString else String c EmptyString
      | r' => String c r'
      end
  end.

Definition strip (s : string) : string := rstrip (lstrip s).

(** [str.lower()] on code points below 256: A..Z and the Latin-1 capitals
    (192..222 except the multiplication sign 215) move up by 32. *)
Definition lower_char (c : ascii) : ascii :=
  let n := nat_of_ascii c in
  if ((65 <=? n) && (n <=? 90)
      || (192 <=? n) && (n <=? 222) && negb (n =? 215))%nat
  then ascii_of_nat (n + 32) else c.

Fixpoint lower (s : string) : string :=
  match s with
  | EmptyString => EmptyString
  | String c r => String (lower_char c) (lower r)
  end.

(** Whether [r"http\S+"] matches somewhere in [s]. *)
Fixpoint has_url (s : string) : bool :=
  match s with
  | EmptyString => false
  | String _ r =>
      match url_pattern s with
      | Some _ => true
      | None => has_url r
      end
  end.

End Str.

(** ** config.py *)

Inductive exn : Type :=
| ValueError (msg : string).

Inductive result (A : Type) : Type :=
| Ok (a : A)
| Raise (e : exn).
Arguments Ok {A} a.
Arguments Raise {A} e.

Record Config : Type := mkConfig {
  youtube_url : string;
  max_message_length : Z;
  cookies_path : option string;
  voice_module : string;
  speech_rate : Z;
  speech_volume : Z;
  speech_pitch : Z;
  language : string;
  include_username : bool;
  queue_max_size : Z
}.

(** The dataclass defaults, for a given URL. *)
Definition default_config (url : string) : Config :=
  {| youtube_url := url;
     max_message_length := 200;
     cookies_path := None;
     voice_module := "espeak-ng";
     speech_rate := 0;
     speech_volume := 100;
     speech_pitch := 0;
     language := "en";
     include_username := true;
     queue_max_size := 50 |}.

(** [Config(youtube_url=url, max_message_length=max_length,
    include_username=username, queue_max_size=size)] *)
Definition configure (url : string) (max_length : Z) (username : bool)
           (size : Z) : Config :=
  {| youtube_url := url;
     max_message_length := max_length;
     cookies_path := None;
     voice_module := "espeak-ng";
     speech_rate := 0;
     speech_volume := 100;
     speech_pitch := 0;
     language := "en";
     include_username := username;
     queue_max_size := size |}.

(** [Config.validate] *)
Definition validate (self : Config) : result unit :=
  if String.eqb (youtube_url self) "" then
    Raise (ValueError "YouTube URL is required")
  else if negb ((-100 <=? speech_rate self) && (speech_rate self <=? 100)) then
    Raise (ValueError "Speech rate must be between -100 and 100")
  else if negb ((0 <=? speech_volume self) && (speech_volume self <=? 100)) then
    Raise (ValueError "Speech volume must be between 0 and 100")
  else if negb ((-100 <=? speech_pitch self) && (speech_pitch self <=? 100)) then
    Raise (ValueError "Speech pitch must be between -100 and 100")
  else if max_message_length self <? 1 then
    Raise (ValueError "Max message length must be positive")
  else if queue_max_size self <? 1 then
    Raise (ValueError "Queue max size must be positive")
  else Ok tt.

(** ** chat_reader.py: message formatting *)

(** The fields of a chat-downloader message dictionary that the reader
    looks up; [None] is a missing key. *)
Record Author : Type := mkAuthor {
  name : option string
}.

Record Message : Type := mkMessage {
  message_type : option string;
  author : option Author;
  message : option string
}.

(** [message.get("author", {}).get("name", "Unknown")] *)
Definition author_name (m : Message) : string :=
  match author m with
  | Some a => match name a with Some n => n | None => "Unknown" end
  | None => "Unknown"
  end.

(** [message.get("message", "")] *)
Definition message_text (m : Message) : string :=
  match message m with Some t => t | None => "" end.

Definition is_text_message (m : Message) : bool :=
  match message_type m with
  | Some k => String.eqb k "text_message"
  | None => false
  end.

(** [ChatReader._format_message] *)
Definition _format_message (config : Config) (m : Message) : option string :=
  if negb (is_text_message m) then None
  else
    let author := author_name m in
    let text := message_text m in
    if String.eqb text "" then None
    else
      let text :=
        if max_message_length config <? Str.len text
        then Str.slice_to text (max_message_length config) ++ "..."
        else text in
      let text := Str.re_sub Str.url_pattern "[link]" text in
      if include_username config
      then Some (author ++ " says: " ++ text)
      else Some text.

(** A text message with an author and a body. *)
Definition text_msg (who body : string) : Message :=
  {| message_type := Some "text_message";
     author := Some {| name := Some who |};
     message := Some body |}.

(** The prefix that line 55 puts before the text. *)
Definition says (config : Config) (m : Message) : string :=
  if include_username config then author_name m ++ " says: " else "".

(** Lines 50-51. *)
Definition redact (text : string) : string :=
  Str.re_sub Str.url_pattern "[link]" text.

(** ** queue.Queue *)

Module Queue.

(** The deque of a [queue.Queue(maxsize)], oldest item first.  The
    program never calls [Queue.join], so the count of unfinished tasks
    that [task_done] maintains is left out. *)
Record t : Type := mk {
  maxsize : Z;
  items : list string
}.

Definition new (maxsize : Z) : t := {| maxsize := maxsize; items := [] |}.

Definition qsize (q : t) : Z := Z.of_nat (length (items q)).

(** The test under which [put] has to wait: [maxsize <= 0] means an
    unbounded queue. *)
Definition full (q : t) : bool := (0 <? maxsize q) && (maxsize q <=? qsize q).

Definition _put (q : t) (item : string) : t :=
  {| maxsize := maxsize q; items := items q ++ [item] |}.

Definition _get (q : t) : option (string * t) :=
  match items q with
  | [] => None
  | x :: rest => Some (x, {| maxsize := maxsize q; items := rest |})
  end.

(** What a [get] by another thread leaves behind. *)
Definition after_get (q : t) : t :=
  match _get q with
  | Some (_, q') => q'
  | None => q
  end.

(** [put(item, timeout=...)]: wait while the queue is full.  [freed] says
    whether the consumer takes an item before the timeout expires; if it
    does not, [queue.Full] is raised ([None]) and the queue is as it was. *)
Definition put (q : t) (item : string) (freed : bool) : option t :=
  if full q then
    if freed then Some (_put (after_get q) item) else None
  else Some (_put q item).

End Queue.

(** ** chat_reader.py: the reader thread *)

Module ChatReader.

(** What the reader thread shares with the other threads, and its local
    message counter. *)
Record state : Type := mkState {
  message_queue : Queue.t;
  shutdown_event : bool;
  message_count : nat
}.

(** One message of the chat stream, with what the other threads do while
    the reader handles it. *)
Record arrival : Type := mkArrival {
  gets_before : nat;       (* items the consumer takes while the reader waits for the message *)
  shutdown_before : bool;  (* shutdown is set while the reader waits for the message *)
  msg : Message;
  get_during_put : bool    (* the consumer takes an item within the put timeout *)
}.

(** A message that arrives while the other threads are idle. *)
Definition quiet (m : Message) : arrival :=
  {| gets_before := 0; shutdown_before := false; msg := m;
     get_during_put := false |}.

Definition env_before (a : arrival) (st : state) : state :=
  {| message_queue := Nat.iter (gets_before a) Queue.after_get (message_queue st);
     shutdown_event := shutdown_event st || shutdown_before a;
     message_count := message_count st |}.

(** Lines 123-134: [try: put(formatted, timeout=0.1) ... except queue.Full: pass] *)
Definition push (freed : bool) (formatted : string) (st : state) : state :=
  match Queue.put (message_queue st) formatted freed with
  | Some q =>
      {| message_queue := q;
         shutdown_event := shutdown_event st;
         message_count := S (message_count st) |}
  | None => st
  end.

(** A run of pushes during which the consumer takes nothing. *)
Definition push_all (pushed : list string) (st : state) : state :=
  fold_left (fun st item => push false item st) pushed st.

(** Lines 115-134: [for message in chat: ...] *)
Fixpoint read_chat (config : Config) (chat : list arrival) (st : state) : state :=
  match chat with
  | [] => st
  | a :: rest =>
      let st := env_before a st in
      if shutdown_event st then st
      else
        match _format_message config (msg a) with
        | Some formatted =>
            if String.eqb formatted "" then read_chat config rest st
            else read_chat config rest (push (get_during_put a) formatted st)
        | None => read_chat config rest st
        end
  end.

(** The items that lines 121-122 hand to the queue for a list of messages. *)
Definition formatted (config : Config) (messages : list Message) : list string :=
  flat_map (fun m =>
              match _format_message config m with
              | Some text => if String.eqb text "" then [] else [text]
              | None => []
              end) messages.

(** [ChatReader._run]: [chat] is [None] when [get_chat] raises. *)
Definition _run (config : Config) (chat : option (list arrival)) (st : state) : state :=
  match chat with
  | None =>
      {| message_queue := message_queue st;
         shutdown_event := true;
         message_count := message_count st |}
  | Some messages => read_chat config messages st
  end.

Definition init (config : Config) : state :=
  {| message_queue := Queue.new (queue_max_size config);
     shutdown_event := false;
     message_count := 0 |}.

End ChatReader.

(** ** tts_speaker.py: the speech worker thread *)

Module TTSSpeaker.

(** Where the worker thread is in [TTSSpeaker._run]; [text] is the item it
    holds. *)
Inductive pc : Type :=
| Setup                          (* line 65: _setup_client(), then ready_event.set() *)
| LoopHead                       (* line 73: while not shutdown_event.is_set() *)
| Get                            (* line 77: message_queue.get(timeout=0.5) *)
| PauseWait (text : string)      (* line 82: pause_event.wait(timeout=0.5) *)
| PauseCheck (text : string)     (* line 83: if shutdown_event.is_set(): break *)
| ShutdownCheck (text : string)  (* line 87: if shutdown_event.is_set(): break *)
| Speak (text : string)          (* lines 91-99: print, speak, task_done *)
| Cleanup                        (* lines 112-118: cancel, close *)
| Stopped.

Record world : Type := mkWorld {
  message_queue : Queue.t;
  pause_event : bool;            (* set means: not paused *)
  shutdown_event : bool;
  ready_event : bool;
  at_pc : pc;
  client : bool;                 (* self.client is connected *)
  dequeued : list string;        (* every item get() has returned, in order *)
  spoken : list string;          (* every text passed to client.speak, in order *)
  closed : bool                  (* client.close() was called *)
}.

Inductive event : Type :=
| Worker (ok : bool)   (* the worker runs its next step; ok: what the step does first raises
                          nothing: _setup_client at Setup, print(text) at Speak,
                          client.cancel() at Cleanup *)
| Timeout              (* the bounded wait the worker is blocked in expires *)
| Put (item : string)  (* the reader thread puts an item *)
| Pause                (* the orchestrator clears pause_event *)
| Resume               (* the orchestrator sets pause_event *)
| Shutdown.            (* some thread sets shutdown_event *)

Definition goto (l : pc) (w : world) : world :=
  {| message_queue := message_queue w; pause_event := pause_event w;
     shutdown_event := shutdown_event w; ready_event := ready_event w;
     at_pc := l; client := client w; dequeued := dequeued w;
     spoken := spoken w; closed := closed w |}.

Definition set_queue (q : Queue.t) (w : world) : world :=
  {| message_queue := q; pause_event := pause_event w;
     shutdown_event := shutdown_event w; ready_event := ready_event w;
     at_pc := at_pc w; client := client w; dequeued := dequeued w;
     spoken := spoken w; closed := closed w |}.

Definition set_pause (b : bool) (w : world) : world :=
  {| message_queue := message_queue w; pause_event := b;
     shutdown_event := shutdown_event w; ready_event := ready_event w;
     at_pc := at_pc w; client := client w; dequeued := dequeued w;
     spoken := spoken w; closed := closed w |}.

Definition set_shutdown (w : world) : world :=
  {| message_queue := message_queue w; pause_event := pause_event w;
     shutdown_event := true; ready_event := ready_event w;
     at_pc := at_pc w; client := client w; dequeued := dequeued w;
     spoken := spoken w; closed := closed w |}.

(** Lines 65-70: the outcome of [_setup_client], then [ready_event.set()]
    on either branch. *)
Definition setup (ok : bool) (w : world) : world :=
  {| message_queue := message_queue w; pause_event := pause_event w;
     shutdown_event := shutdown_event w; ready_event := true;
     at_pc := if ok then LoopHead else Stopped;
     client := ok; dequeued := dequeued w;
     spoken := spoken w; closed := closed w |}.

(** Line 77 when an item is there. *)
Definition take (x : string) (q : Queue.t) (w : world) : world :=
  {| message_queue := q; pause_event := pause_event w;
     shutdown_event := shutdown_event w; ready_event := ready_event w;
     at_pc := PauseWait x; client := client w;
     dequeued := dequeued w ++ [x];
     spoken := spoken w; closed := closed w |}.

(** Lines 91-99.  [print(text)] comes first: when it raises ([ok] false)
    the exception is caught at line 104, [client.speak] is not called for
    this item and the loop goes on.  Otherwise [client.speak(text)] is
    called when the client is there; an exception it raises is caught at
    line 104 as well, after the text was passed to it. *)
Definition speak (ok : bool) (x : string) (w : world) : world :=
  {| message_queue := message_queue w; pause_event := pause_event w;
     shutdown_event := shutdown_event w; ready_event := ready_event w;
     at_pc := LoopHead; client := client w; dequeued := dequeued w;
     spoken := if ok && client w then spoken w ++ [x] else spoken w;
     closed := closed w |}.

(** Lines 112-118.  [cancel()] and [close()] are in one [try]: when
    [cancel()] raises ([ok] false) the warning is printed and [close()] is
    not called. *)
Definition cleanup (ok : bool) (w : world) : world :=
  {| message_queue := message_queue w; pause_event := pause_event w;
     shutdown_event := shutdown_event w; ready_event := ready_event w;
     at_pc := Stopped; client := client w; dequeued := dequeued w;
     spoken := spoken w; closed := ok && client w |}.

(** One step of the worker thread.  At [Get] and [PauseWait] the worker is
    blocked, and stays where it is, until the queue has an item or the
    pause event is set. *)
Definition worker_step (ok : bool) (w : world) : world :=
  match at_pc w with
  | Setup => setup ok w
  | LoopHead => if shutdown_event w then goto Cleanup w else goto Get w
  | Get =>
      match Queue._get (message_queue w) with
      | Some (x, q) => take x q w
      | None => w
      end
  | PauseWait x => if pause_event w then goto (ShutdownCheck x) w else w
  | PauseCheck x =>
      if shutdown_event w then goto (ShutdownCheck x) w else goto (PauseWait x) w
  | ShutdownCheck x => if shutdown_event w then goto Cleanup w else goto (Speak x) w
  | Speak x => speak ok x w
  | Cleanup => cleanup ok w
  | Stopped => w
  end.

(** The bounded wait expires: [get] raises [queue.Empty] (line 101:
    continue), [pause_event.wait] returns [False]. *)
Definition timeout (w : world) : world :=
  match at_pc w with
  | Get =>
      match Queue._get (message_queue w) with
      | None => goto LoopHead w
      | Some _ => w
      end
  | PauseWait x => if pause_event w then w else goto (PauseCheck x) w
  | _ => w
  end.

(** [pause_event.set()] wakes a worker waiting at line 82: its [wait]
    returns [True] even if the event is cleared again at once. *)
Definition resume (w : world) : world :=
  match at_pc w with
  | PauseWait x => goto (ShutdownCheck x) (set_pause true w)
  | _ => set_pause true w
  end.

(** The reader's put as the worker sees it, at the moment it ends: the
    item is appended, or the queue is still full and nothing changes. *)
Definition env_put (item : string) (w : world) : world :=
  match Queue.put (message_queue w) item false with
  | Some q => set_queue q w
  | None => w
  end.

Definition step (w : world) (e : event) : world :=
  match e with
  | Worker ok => worker_step ok w
  | Timeout => timeout w
  | Put item => env_put item w
  | Pause => set_pause false w
  | Resume => resume w
  | Shutdown => set_shutdown w
  end.

Definition run (w : world) (tr : list event) : world := fold_left step tr w.

(** The state in which [main] starts the worker thread. *)
Definition init (config : Config) : world :=
  {| message_queue := Queue.new (queue_max_size config);
     pause_event := true;
     shutdown_event := false;
     ready_event := false;
     at_pc := Setup;
     client := false;
     dequeued := [];
     spoken := [];
     closed := false |}.

(** The item the worker holds between [get] and [speak]. *)
Definition held (w : world) : list string :=
  match at_pc w with
  | PauseWait x | PauseCheck x | ShutdownCheck x | Speak x => [x]
  | _ => []
  end.

Definition is_worker (e : event) : bool :=
  match e with Worker _ => true | _ => false end.

(** The number of steps of the worker thread in a trace. *)
Definition worker_steps (tr : list event) : nat :=
  length (filter is_worker tr).

(** The outcome of the device call in the first worker step of a trace,
    which is the call to [_setup_client]. *)
Fixpoint setup_outcome (tr : list event) : option bool :=
  match tr with
  | [] => None
  | Worker ok :: _ => Some ok
  | _ :: rest => setup_outcome rest
  end.

(** The items of the [Put] events of a trace for which the queue had
    room, in order. *)
Fixpoint accepted (w : world) (tr : list event) : list string :=
  match tr with
  | [] => []
  | Put item :: rest =>
      if Queue.full (message_queue w)
      then accepted (step w (Put item)) rest
      else item :: accepted (step w (Put item)) rest
  | e :: rest => accepted (step w e) rest
  end.

(** The worker is inside the [while] loop of lines 73-106. *)
Definition in_loop (l : pc) : bool :=
  match l with
  | LoopHead | Get | PauseWait _ | PauseCheck _ | ShutdownCheck _ | Speak _ => true
  | Setup | Cleanup | Stopped => false
  end.

(** The items that reached lines 91-99 during a trace, in order, each
    with whether [print(text)] returned, so that the item went on to
    [client.speak]. *)
Fixpoint handled (w : world) (tr : list event) : list (string * bool) :=
  match tr with
  | [] => []
  | e :: rest =>
      match e, at_pc w with
      | Worker ok, Speak x => (x, ok) :: handled (step w e) rest
      | _, _ => handled (step w e) rest
      end
  end.

(** Whether [client.cancel()] returned in the cleanup of a trace, if the
    worker got there. *)
Fixpoint cleanup_outcome (w : world) (tr : list event) : option bool :=
  match tr with
  | [] => None
  | e :: rest =>
      match e, at_pc w with
      | Worker ok, Cleanup => Some ok
      | _, _ => cleanup_outcome (step w e) rest
      end
  end.

(** With [log] the items handled so far: the spoken items are those of the
    log whose [print] returned, and every dequeued item is in the log, or
    is the one in hand, or is the one that a shutdown made the worker drop
    on its way out. *)
Definition logged (log : list (string * bool)) (w : world) : Prop :=
  spoken w = map fst (filter snd log)
  /\ (dequeued w = (map fst log ++ held w)%list
      \/ (exists x, dequeued w = (map fst log ++ [x])%list
                    /\ shutdown_event w = true
                    /\ (at_pc w = Cleanup \/ at_pc w = Stopped))).

(** What holds in every state the worker reaches from [init]. *)
Definition inv (w : world) : Prop :=
  (in_loop (at_pc w) = true -> client w = true)
  /\ (at_pc w <> Setup -> ready_event w = true)
  /\ (at_pc w = Setup -> dequeued w = [] /\ spoken w = [] /\ ready_event w = false).

(** How far the worker is from [Stopped] once it holds an item and
    shutdown is set. *)
Definition rank (l : pc) : nat :=
  match l with
  | Stopped => 0
  | Cleanup => 1
  | ShutdownCheck _ => 2
  | PauseCheck _ => 3
  | PauseWait _ => 4
  | _ => 5
  end.

(** The worker holds [x] at the pause gate, or is on its way out, with
    shutdown set and the device log and the dequeue log as given. *)
Definition leaving (x : string) (said got : list string) (w : world) : Prop :=
  shutdown_event w = true /\ spoken w = said /\ dequeued w = got
  /\ ((at_pc w = PauseWait x /\ pause_event w = false)
      \/ at_pc w = PauseCheck x \/ at_pc w = ShutdownCheck x
      \/ at_pc w = Cleanup \/ at_pc w = Stopped).

End TTSSpeaker.

(** ** main.py: the orchestrator *)

Module Main.

(** What the main thread meets while it is blocked in [input()]. *)
Inductive stdin_event : Type :=
| Line (s : string)   (* a line is read *)
| Eof                 (* stdin is closed: EOFError *)
| Sigint              (* Ctrl+C: signal_handler sets shutdown_event (as the reader thread
                         does when it cannot connect); input() goes on waiting *)
| Fault.              (* any other exception *)

Record signals : Type := mkSignals {
  pause_event : bool;
  shutdown_event : bool
}.

Inductive exit_reason : Type :=
| LoopCondition   (* line 195: shutdown_event is set *)
| Quit            (* line 209: the q command *)
| EndOfInput      (* lines 220-222: except EOFError: break *)
| InternalFault.  (* lines 224-226: except Exception *)

Inductive loop_result : Type :=
| Exited (why : exit_reason) (s : signals)
| Blocked (s : signals).   (* still waiting in input() *)

Definition set_shutdown (s : signals) : signals :=
  {| pause_event := pause_event s; shutdown_event := true |}.

(** Lines 199-205. *)
Definition toggle_pause (s : signals) : signals :=
  {| pause_event := negb (pause_event s); shutdown_event := shutdown_event s |}.

(** Lines 195-226.  [in_input] is true while the thread is still inside
    the [input()] call of the current iteration. *)
Fixpoint control_loop (in_input : bool) (stdin : list stdin_event) (s : signals)
  : loop_result :=
  if negb in_input && shutdown_event s then Exited LoopCondition s
  else
    match stdin with
    | [] => Blocked s
    | Sigint :: rest => control_loop true rest (set_shutdown s)
    | Eof :: _ => Exited EndOfInput s
    | Fault :: _ => Exited InternalFault (set_shutdown s)
    | Line l :: rest =>
        let cmd := Str.lower (Str.strip l) in
        if String.eqb cmd "p" then control_loop false rest (toggle_pause s)
        else if String.eqb cmd "q" then Exited Quit (set_shutdown s)
        else control_loop false rest s
    end.

(** What the main thread does to the workers. *)
Inductive action : Type :=
| StartSpeaker
| StartReader
| JoinReader (shutdown_is_set : bool)    (* chat_reader.join(timeout=2) *)
| JoinSpeaker (shutdown_is_set : bool).  (* tts_speaker.join(timeout=2) *)

Inductive outcome : Type :=
| Exit (code : Z) (did : list action)
| Running (did : list action).   (* the command loop has not ended *)

(** Lines 164-166. *)
Definition initial_signals : signals :=
  {| pause_event := true; shutdown_event := false |}.

(** [main], from the built configuration on. *)
Definition main (config : Config) (stdin : list stdin_event) : outcome :=
  match validate config with
  | Raise _ => Exit 1 []
  | Ok _ =>
      match control_loop false stdin initial_signals with
      | Exited _ s =>
          Exit 0 [StartSpeaker; StartReader;
                  JoinReader (shutdown_event s); JoinSpeaker (shutdown_event s)]
      | Blocked _ => Running [StartSpeaker; StartReader]
      end
  end.

End Main.

(** ** main.py: the command line *)

(** The regular expressions of [validate_youtube_url], matched the way
    [re.match] does: from the start of the string, by backtracking, with no
    anchor at the end. *)
Module Re.

Inductive regex : Type :=
| Lit (s : string)               (* the characters of s, as they are *)
| Opt (r : regex)                (* r? *)
| Cat (r1 r2 : regex)            (* r1 r2 *)
| Plus (cls : ascii -> bool).    (* [cls]+ *)

(** [c.isalnum()] on code points below 256: the ASCII digits and letters,
    the ordinal indicators, the micro sign, the superscript digits, the
    vulgar fractions and the Latin-1 letters. *)
Definition isalnum (c : ascii) : bool :=
  let n := nat_of_ascii c in
  ((48 <=? n) && (n <=? 57) || (65 <=? n) && (n <=? 90)
   || (97 <=? n) && (n <=? 122)
   || (n =? 170) || (n =? 178) || (n =? 179) || (n =? 181) || (n =? 185)
   || (n =? 186) || (188 <=? n) && (n <=? 190)
   || (192 <=? n) && (n <=? 214) || (216 <=? n) && (n <=? 246)
   || (248 <=? n) && (n <=? 255))%nat.

(** The class [[\w-]]. *)
Definition word_or_dash (c : ascii) : bool :=
  isalnum c || Ascii.eqb c "_" || Ascii.eqb c "-".

Fixpoint all (cls : ascii -> bool) (s : string) : bool :=
  match s with
  | EmptyString => true
  | String c r => cls c && all cls r
  end.

(** After the first character of [[cls]+]: take more characters of the
    class, the longest run first, then go on with [k]. *)
Fixpoint more (cls : ascii -> bool) (k : string -> bool) (s : string) : bool :=
  match s with
  | String c r => if cls c then more cls k r || k s else k s
  | EmptyString => k s
  end.

(** Whether [r] matches at the start of [s] with [k] accepting what is
    left. *)
Fixpoint match_k (r : regex) (s : string) (k : string -> bool) : bool :=
  match r with
  | Lit p =>
      match Str.strip_prefix p s with
      | Some rest => k rest
      | None => false
      end
  | Opt r' => match_k r' s k || k s
  | Cat r1 r2 => match_k r1 s (fun mid => match_k r2 mid k)
  | Plus cls =>
      match s with
      | String c rest => cls c && more cls k rest
      | EmptyString => false
      end
  end.

(** [re.match(r, s)] as a truth value. *)
Definition re_match (r : regex) (s : string) : bool :=
  match_k r s (fun _ => true).

(** [r] matches a prefix of [s] and leaves [rest]. *)
Fixpoint lang (r : regex) (s rest : string) : Prop :=
  match r with
  | Lit p => s = p ++ rest
  | Opt r' => lang r' s rest \/ s = rest
  | Cat r1 r2 => exists mid, lang r1 s mid /\ lang r2 mid rest
  | Plus cls =>
      exists c m, s = String c (m ++ rest) /\ cls c = true /\ all cls m = true
  end.

End Re.

Module Cli.

(** Line 30: [^https?://(www\.)?youtube\.com/watch\?v=[\w-]+] *)
Definition watch_pattern : Re.regex :=
  Re.Cat (Re.Lit "http") (Re.Cat (Re.Opt (Re.Lit "s")) (Re.Cat (Re.Lit "://")
    (Re.Cat (Re.Opt (Re.Lit "www."))
       (Re.Cat (Re.Lit "youtube.com/watch?v=") (Re.Plus Re.word_or_dash))))).

(** Line 31: [^https?://youtu\.be/[\w-]+] *)
Definition short_pattern : Re.regex :=
  Re.Cat (Re.Lit "http") (Re.Cat (Re.Opt (Re.Lit "s"))
    (Re.Cat (Re.Lit "://youtu.be/") (Re.Plus Re.word_or_dash))).

(** Line 32: [^https?://(www\.)?youtube\.com/live/[\w-]+] *)
Definition live_pattern : Re.regex :=
  Re.Cat (Re.Lit "http") (Re.Cat (Re.Opt (Re.Lit "s")) (Re.Cat (Re.Lit "://")
    (Re.Cat (Re.Opt (Re.Lit "www."))
       (Re.Cat (Re.Lit "youtube.com/live/") (Re.Plus Re.word_or_dash))))).

Definition patterns : list Re.regex :=
  [watch_pattern; short_pattern; live_pattern].

Inductive checked : Type :=
| Accepted (url : string)
| ArgumentTypeError (msg : string).

(** [validate_youtube_url] *)
Definition validate_youtube_url (url : string) : checked :=
  if existsb (fun pattern => Re.re_match pattern url) patterns
  then Accepted url
  else ArgumentTypeError
         ("Invalid YouTube URL: " ++ url ++ String (ascii_of_nat 10)
          "Expected format: https://www.youtube.com/watch?v=VIDEO_ID").

(** The literal starts of the URLs that the three patterns accept. *)
Definition accepted_starts : list string :=
  ["http://youtube.com/watch?v="; "http://www.youtube.com/watch?v=";
   "https://youtube.com/watch?v="; "https://www.youtube.com/watch?v=";
   "http://youtu.be/"; "https://youtu.be/";
   "http://youtube.com/live/"; "http://www.youtube.com/live/";
   "https://youtube.com/live/"; "https://www.youtube.com/live/"].

(** What [parse_args] returns. *)
Record Namespace : Type := mkNamespace {
  url : string;
  voice : string;
  rate : Z;
  volume : Z;
  pitch : Z;
  max_length : Z;
  no_username : bool;
  language : string;
  queue_size : Z;
  cookies : option string
}.

(** Lines 62-125: the command line that gives only the URL. *)
Definition default_args (url : string) : Namespace :=
  {| url := url; voice := "espeak-ng"; rate := 0; volume := 100; pitch := 0;
     max_length := 200; no_username := false; language := "en";
     queue_size := 50; cookies := None |}.

(** Lines 142-153: [Config(youtube_url=args.url, ...)], the fields in the
    order of the dataclass. *)
Definition config_of_args (args : Namespace) : Config :=
  mkConfig (url args) (max_length args) (cookies args) (voice args)
           (rate args) (volume args) (pitch args) (language args)
           (negb (no_username args)) (queue_size args).

End Cli.

(** ** tts_speaker.py: schedules of the worker thread *)

Module Schedule.

Import TTSSpeaker.

Definition is_timeout (e : event) : bool :=
  match e with Timeout => true | _ => false end.

(** The rounds of a trace: a round is over as soon as the worker has run
    and a bounded wait has expired, in either order. *)
Fixpoint rounds_from (ran expired : bool) (tr : list event) : nat :=
  match tr with
  | [] => O
  | e :: rest =>
      let ran := ran || is_worker e in
      let expired := expired || is_timeout e in
      if ran && expired then S (rounds_from false false rest)
      else rounds_from ran expired rest
  end.

Definition rounds (tr : list event) : nat := rounds_from false false tr.

(** With shutdown set, how far the worker is from [Stopped]: the steps
    and expiries it still needs at most.  At 4 and 7 it is blocked on a
    bounded wait. *)
Definition distance (w : world) : nat :=
  match at_pc w with
  | Stopped => 0
  | Cleanup => 1
  | LoopHead | ShutdownCheck _ => 2
  | Setup | Speak _ | PauseCheck _ => 3
  | PauseWait _ => if pause_event w then 5 else 4
  | Get =>
      match Queue.items (message_queue w) with
      | [] => 7
      | _ :: _ => 6
      end
  end.

(** While pause is active and nobody resumes: nothing is added to what
    was spoken, at most one item is taken, and the worker does not get
    past line 87 with an item unless it is leaving. *)
Definition paused (said got : list string) (w : world) : Prop :=
  pause_event w = false /\ spoken w = said
  /\ match at_pc w with
     | Setup | LoopHead | Get => dequeued w = got
     | PauseWait _ | PauseCheck _ | Cleanup | Stopped =>
         (length (dequeued w) <= S (length got))%nat
     | ShutdownCheck _ =>
         shutdown_event w = true /\ (length (dequeued w) <= S (length got))%nat
     | Speak _ => False
     end.

(** After a successful setup and before the cleanup: the client is there
    and has not been closed. *)
Definition working (w : world) : Prop :=
  client w = true /\ closed w = false
  /\ at_pc w <> Setup /\ at_pc w <> Stopped.

(** Of the buffered items, those that go on to [client.speak] when the
    worker takes five steps for each: the items for which [print]
    returns, which is the outcome of the fifth step. *)
Fixpoint passed_on (buffered : list string) (oks : list bool) : list string :=
  match buffered, oks with
  | x :: xs, _ :: _ :: _ :: _ :: printed :: later =>
      if printed then x :: passed_on xs later else passed_on xs later
  | _, _ => []
  end.

End Schedule.

(** * Tactics *)

(** A range test [(a <=? x) && (x <=? b)] that is known true or false. *)
Ltac range_case E :=
  first [ apply andb_true_iff in E; rewrite !Z.leb_le in E
        | apply andb_false_iff in E; rewrite !Z.leb_gt in E ].

(** Closes the cases of an invariant of the speech worker after one step. *)
Ltac fin :=
  repeat match goal with
         | H : _ /\ _ |- _ => destruct H
         | H : exists _, _ |- _ => destruct H
         | H : _ \/ _ |- _ => destruct H
         | H : ?a = ?a -> _ |- _ => specialize (H eq_refl)
         | H : ?l <> TTSSpeaker.Setup -> _ |- _ => specialize (H ltac:(discriminate))
         end;
  cbn in *; rewrite ?app_nil_r in *; subst;
  repeat split; intros; try discriminate; try congruence; auto;
  try solve [ left; rewrite ?app_nil_r; congruence
            | right; eexists; repeat split; eauto; congruence ].

(** Splits on the tests a step of the speech worker makes. *)
Ltac by_cases :=
  unfold TTSSpeaker.env_put, Queue.put, Queue._get in *; cbn in *;
  repeat match goal with
         | |- context [if ?b then _ else _] => destruct b; cbn in *
         | |- context [match Queue.items ?q with _ => _ end] =>
             destruct (Queue.items q); cbn in *
         end.

(** Takes apart the existentials and alternatives of a regular-expression
    match. *)
Ltac take_apart :=
  repeat match goal with
         | H : exists _, _ |- _ => destruct H
         | H : _ /\ _ |- _ => destruct H
         | H : _ \/ _ |- _ => destruct H
         end;
  subst.

(** Names the accepted start, found by [skip], of a URL that goes on
    with [c], [r]. *)
Ltac pick skip c r :=
  eexists _, c, r;
  split; [cbn; skip; left; reflexivity
         | split; [reflexivity | assumption]].

(** * Properties *)

(** ** Strings *)

Section StrFacts.

Import Str.

Lemma substring_length (n : nat) (s : string) :
  (n <= String.length s)%nat -> String.length (substring 0 n s) = n.
Proof.
  revert s; induction n as [|n IH]; intros [|c r] H; simpl in *;
    try reflexivity; try lia.
  f_equal. apply IH. lia.
Qed.

Lemma substring_drop (n : nat) (s : string) :
  substring 0 n s ++ drop n s = s.
Proof.
  revert s; induction n as [|n IH]; intros [|c r]; simpl; try reflexivity.
  now rewrite IH.
Qed.

Lemma append_assoc (s t u : string) : (s ++ t) ++ u = s ++ t ++ u.
Proof. induction s as [|c r IH]; simpl; [reflexivity | now rewrite IH]. Qed.

Lemma append_not_nil_r (s t : string) : t <> "" -> s ++ t <> "".
Proof. destruct s, t; simpl; congruence. Qed.

Lemma url_pattern_at (s : string) :
  url_pattern s = None <-> url_at s = false.
Proof.
  unfold url_pattern, url_at.
  destruct (strip_prefix "http" s) as [[|c r]|]; simpl; try tauto.
  destruct (isspace c); simpl; split; congruence.
Qed.

Lemma url_pattern_some (s : string) (n : nat) :
  url_pattern s = Some n -> exists k, n = S k /\ url_at s = true.
Proof.
  intros H. destruct (url_at s) eqn:E.
  - unfold url_pattern in H.
    destruct (strip_prefix "http" s); [|discriminate].
    destruct (nonspace_run s0); [discriminate|].
    injection H as <-. eexists; split; reflexivity.
  - apply url_pattern_at in E. congruence.
Qed.

Lemma url_at_head (s : string) :
  url_at s = true -> exists r, s = String "h" r.
Proof.
  unfold url_at. destruct s as [|c r]; cbn [strip_prefix];
    [intros H; discriminate|].
  destruct (Ascii.eqb_spec "h" c) as [<-|]; [eauto | intros H; discriminate].
Qed.

(** How [redact] treats the head of a string. *)
Lemma redact_head (s : string) :
  (url_at s = true /\ exists t, redact s = "[link]" ++ t)
  \/ (url_at s = false
      /\ redact s = match s with
                    | EmptyString => EmptyString
                    | String c r => String c (redact r)
                    end).
Proof.
  destruct s as [|c r]; [right; split; reflexivity|].
  unfold redact, re_sub; simpl.
  destruct (url_pattern (String c r)) as [n|] eqn:E.
  - left. destruct (url_pattern_some _ _ E) as (k & -> & Hat).
    split; [exact Hat | eauto].
  - right. apply url_pattern_at in E. split; [exact E | reflexivity].
Qed.

Lemma redact_cons (c : ascii) (r : string) :
  url_pattern (String c r) = None -> redact (String c r) = String c (redact r).
Proof. intros H. unfold redact, re_sub; simpl. now rewrite H. Qed.

(** Replacing inside the tail does not create a match at the head. *)
Lemma url_at_redact_tail (c : ascii) (r : string) :
  url_at (String c r) = false -> url_at (String c (redact r)) = false.
Proof.
  intros H. unfold url_at in *. cbn [strip_prefix] in *.
  destruct (Ascii.eqb "h" c); [|reflexivity].
  destruct (redact_head r) as [[_ [t ->]]|[_ ->]]; [reflexivity|].
  destruct r as [|c1 r1]; [reflexivity|]. cbn [strip_prefix] in *.
  destruct (Ascii.eqb "t" c1); [|reflexivity].
  destruct (redact_head r1) as [[_ [t ->]]|[_ ->]]; [reflexivity|].
  destruct r1 as [|c2 r2]; [reflexivity|]. cbn [strip_prefix] in *.
  destruct (Ascii.eqb "t" c2); [|reflexivity].
  destruct (redact_head r2) as [[_ [t ->]]|[_ ->]]; [reflexivity|].
  destruct r2 as [|c3 r3]; [reflexivity|]. cbn [strip_prefix] in *.
  destruct (Ascii.eqb "p" c3); [|reflexivity].
  destruct (redact_head r3) as [[Hat [t ->]]|[_ ->]].
  - destruct (url_at_head _ Hat) as [r4 ->]. discriminate H.
  - destruct r3 as [|c4 r4]; [reflexivity | exact H].
Qed.

Lemma has_url_link (t : string) : has_url ("[link]" ++ t) = has_url t.
Proof. reflexivity. Qed.

(** No URL-shaped substring is left after the replacement. *)
Lemma re_sub_from_url_free (skip : nat) (s : string) :
  has_url (re_sub_from url_pattern "[link]" skip s) = false.
Proof.
  revert skip; induction s as [|c r IH]; intros skip; [reflexivity|].
  cbn [re_sub_from]. destruct skip as [|k]; [|apply IH].
  destruct (url_pattern (String c r)) as [n|] eqn:E.
  - destruct (url_pattern_some _ _ E) as (k & -> & _).
    rewrite has_url_link. apply IH.
  - apply url_pattern_at, url_at_redact_tail, url_pattern_at in E.
    unfold redact, re_sub in E. cbn [has_url]. rewrite E. apply IH.
Qed.

Lemma redact_url_free (s : string) : has_url (redact s) = false.
Proof. apply re_sub_from_url_free. Qed.

(** A text without URL-shaped substring is left as it is. *)
Lemma redact_id (s : string) : has_url s = false -> redact s = s.
Proof.
  induction s as [|c r IH]; intros H; [reflexivity|].
  simpl in H. destruct (url_pattern (String c r)) eqn:E; [discriminate|].
  rewrite redact_cons by exact E. now rewrite IH.
Qed.

Lemma redact_not_nil (s : string) : s <> "" -> redact s <> "".
Proof.
  destruct s as [|c r]; [congruence|]. intros _.
  unfold redact, re_sub; simpl.
  destruct (url_pattern (String c r)) as [[|n]|]; simpl; discriminate.
Qed.

(** A match is passed over as a whole: the scan resumes after it. *)
Lemma re_sub_from_drop (pat : string -> option nat) (repl : string)
      (skip : nat) (s : string) :
  re_sub_from pat repl skip s = re_sub pat repl (drop skip s).
Proof.
  revert skip; induction s as [|c r IH]; intros [|k]; try reflexivity.
  simpl. apply IH.
Qed.

Lemma redact_match (s : string) (n : nat) :
  url_pattern s = Some n -> redact s = "[link]" ++ redact (drop n s).
Proof.
  intros H. destruct (url_pattern_some _ _ H) as (k & -> & _).
  destruct s as [|c r]; [discriminate|].
  unfold redact, re_sub at 1; simpl re_sub_from. rewrite H.
  now rewrite re_sub_from_drop.
Qed.

Example redact_two_urls :
  redact "a http://x.y/z b https://u.v http httpx"
  = "a [link] b [link] http [link]".
Proof. reflexivity. Qed.

Example redact_is_case_sensitive : redact "HTTP://x.y see" = "HTTP://x.y see".
Proof. reflexivity. Qed.

Example strip_lower_command : lower (strip "  Q  ") = "q".
Proof. reflexivity. Qed.

Example slice_to_negative : slice_to "abcdef" (-2) = "abcd".
Proof. reflexivity. Qed.

End StrFacts.

(** ** Configuration *)

Lemma validate_ok_iff (config : Config) :
  validate config = Ok tt <->
  (youtube_url config <> ""
   /\ -100 <= speech_rate config <= 100
   /\ 0 <= speech_volume config <= 100
   /\ -100 <= speech_pitch config <= 100
   /\ 1 <= max_message_length config
   /\ 1 <= queue_max_size config).
Proof.
  unfold validate.
  destruct (String.eqb_spec (youtube_url config) "") as [Hu|Hu];
    [split; [discriminate | tauto] |].
  destruct ((-100 <=? speech_rate config) && (speech_rate config <=? 100)) eqn:Er;
    range_case Er; cbn [negb]; [| split; [discriminate | lia] ].
  destruct ((0 <=? speech_volume config) && (speech_volume config <=? 100)) eqn:Ev;
    range_case Ev; cbn [negb]; [| split; [discriminate | lia] ].
  destruct ((-100 <=? speech_pitch config) && (speech_pitch config <=? 100)) eqn:Ep;
    range_case Ep; cbn [negb]; [| split; [discriminate | lia] ].
  destruct (Z.ltb_spec (max_message_length config) 1);
    [split; [discriminate | lia] |].
  destruct (Z.ltb_spec (queue_max_size config) 1);
    [split; [discriminate | lia] |].
  split; [intros _; repeat split; (exact Hu || lia) | reflexivity].
Qed.

Lemma validate_cases (config : Config) :
  validate config = Ok tt \/ exists e, validate config = Raise e.
Proof. destruct (validate config) as [[]|e]; eauto. Qed.

(** C8: [validate] raises exactly when the URL is empty, the rate or the
    pitch is outside -100..100, the volume is outside 0..100, or the
    message length limit or the queue size is below 1; a configuration
    that meets every check passes.  [main] then exits with code 1 before
    it starts a worker exactly when [validate] raises. *)
Theorem validate_rejects_iff (config : Config) (stdin : list Main.stdin_event) :
  ((exists e, validate config = Raise e) <->
   (youtube_url config = ""
    \/ speech_rate config < -100 \/ 100 < speech_rate config
    \/ speech_volume config < 0 \/ 100 < speech_volume config
    \/ speech_pitch config < -100 \/ 100 < speech_pitch config
    \/ max_message_length config < 1
    \/ queue_max_size config < 1))
  /\ (validate config = Ok tt <->
      (youtube_url config <> ""
       /\ -100 <= speech_rate config <= 100
       /\ 0 <= speech_volume config <= 100
       /\ -100 <= speech_pitch config <= 100
       /\ 1 <= max_message_length config
       /\ 1 <= queue_max_size config))
  /\ ((exists e, validate config = Raise e) <->
      Main.main config stdin = Main.Exit 1 []).
Proof.
  pose proof (validate_ok_iff config) as Hok.
  split; [|split; [exact Hok|]].
  - split.
    + intros [e He]. rewrite He in Hok.
      destruct (string_dec (youtube_url config) "") as [Hu|Hu]; [now left|].
      right.
      assert (Hn : ~ (-100 <= speech_rate config <= 100
                      /\ 0 <= speech_volume config <= 100
                      /\ -100 <= speech_pitch config <= 100
                      /\ 1 <= max_message_length config
                      /\ 1 <= queue_max_size config))
        by (intros Hall; destruct Hok as [_ Hok]; discriminate Hok; tauto).
      lia.
    + intros Hbad. destruct (validate_cases config) as [H|H]; [|exact H].
      apply Hok in H. exfalso. intuition lia.
  - unfold Main.main. destruct (validate config) as [[]|e].
    + split; [intros [e He]; discriminate|].
      destruct (Main.control_loop false stdin Main.initial_signals);
        discriminate.
    + split; [reflexivity | eauto].
Qed.

(** ** Message formatting *)

Lemma format_text_message (config : Config) (m : Message) :
  is_text_message m = true -> message_text m <> "" ->
  _format_message config m
  = Some (says config m
          ++ redact (if max_message_length config <? Str.len (message_text m)
                     then Str.slice_to (message_text m) (max_message_length config)
                          ++ "..."
                     else message_text m)).
Proof.
  intros Hk Ht. unfold _format_message, says, redact. rewrite Hk. cbn [negb].
  apply String.eqb_neq in Ht. rewrite Ht.
  destruct (include_username config); [|reflexivity].
  now rewrite append_assoc.
Qed.

(** C10: a text message with a body and no author name is formatted, with
    user names on, as "Unknown says: " followed by the normalized body;
    it is not dropped. *)
Theorem missing_author_is_unknown (config : Config) (m : Message) :
  is_text_message m = true ->
  message_text m <> "" ->
  (author m = None \/ exists a, author m = Some a /\ name a = None) ->
  include_username config = true ->
  _format_message config m
  = Some ("Unknown says: "
          ++ redact (if max_message_length config <? Str.len (message_text m)
                     then Str.slice_to (message_text m) (max_message_length config)
                          ++ "..."
                     else message_text m)).
Proof.
  intros Hk Ht Ha Hu. rewrite format_text_message by assumption.
  unfold says, author_name. rewrite Hu.
  destruct Ha as [-> | (a & -> & ->)]; reflexivity.
Qed.

Lemma missing_author_is_unknown_witness :
  _format_message (default_config "https://youtu.be/x")
    {| message_type := Some "text_message"; author := None;
       message := Some "hello" |}
  = Some "Unknown says: hello"
  /\ _format_message (default_config "https://youtu.be/x")
       {| message_type := Some "text_message";
          author := Some {| name := None |};
          message := Some "see https://a.b now" |}
     = Some "Unknown says: see [link] now".
Proof.
  split.
  - apply (missing_author_is_unknown (default_config "https://youtu.be/x")
             {| message_type := Some "text_message"; author := None;
                message := Some "hello" |});
      [reflexivity | discriminate | left; reflexivity | reflexivity].
  - apply (missing_author_is_unknown (default_config "https://youtu.be/x")
             {| message_type := Some "text_message";
                author := Some {| name := None |};
                message := Some "see https://a.b now" |});
      [reflexivity | discriminate | right; eexists; split; reflexivity
      | reflexivity].
Defined.

(** C4: a body longer than [max_message_length] is cut to its first
    [max_message_length] characters followed by "..." (the text that then
    goes through the URL replacement and into the item); a body that is
    not longer is not cut. *)
Theorem long_body_is_truncated (config : Config) (m : Message) :
  is_text_message m = true ->
  message_text m <> "" ->
  0 <= max_message_length config ->
  let text := message_text m in
  let n := Z.to_nat (max_message_length config) in
  (max_message_length config < Str.len text ->
   String.length (substring 0 n text) = n
   /\ text = substring 0 n text ++ Str.drop n text
   /\ _format_message config m
      = Some (says config m ++ redact (substring 0 n text ++ "..."))
   /\ (Str.has_url (substring 0 n text ++ "...") = false ->
       _format_message config m
       = Some (says config m ++ substring 0 n text ++ "...")))
  /\ (Str.len text <= max_message_length config ->
      _format_message config m = Some (says config m ++ redact text)
      /\ (Str.has_url text = false ->
          _format_message config m = Some (says config m ++ text))).
Proof.
  intros Hk Ht Hmax text n.
  pose proof (format_text_message config m Hk Ht) as Hf. fold text in Hf.
  split; intros Hlen.
  - assert (Hcut : _format_message config m
                   = Some (says config m ++ redact (substring 0 n text ++ "..."))).
    { rewrite Hf. apply Z.ltb_lt in Hlen. rewrite Hlen.
      unfold Str.slice_to. apply Z.ltb_ge in Hmax. now rewrite Hmax. }
    repeat split.
    + apply substring_length. unfold Str.len in Hlen. subst n. lia.
    + symmetry. apply substring_drop.
    + exact Hcut.
    + intros Hfree. rewrite Hcut. now rewrite redact_id.
  - assert (Hkeep : _format_message config m = Some (says config m ++ redact text)).
    { rewrite Hf. apply Z.ltb_ge in Hlen. now rewrite Hlen. }
    split; [exact Hkeep|].
    intros Hfree. rewrite Hkeep. now rewrite redact_id.
Qed.

Lemma long_body_is_truncated_witness :
  _format_message (configure "https://youtu.be/x" 5 true 50)
    (text_msg "A" "abcdefgh") = Some "A says: abcde..."
  /\ _format_message (configure "https://youtu.be/x" 8 false 50)
       (text_msg "A" "abcdefgh") = Some "abcdefgh".
Proof.
  split.
  - apply (long_body_is_truncated (configure "https://youtu.be/x" 5 true 50)
             (text_msg "A" "abcdefgh"));
      [reflexivity | discriminate | cbn; lia | reflexivity | reflexivity].
  - apply (long_body_is_truncated (configure "https://youtu.be/x" 8 false 50)
             (text_msg "A" "abcdefgh"));
      [reflexivity | discriminate | cbn; lia | vm_compute; discriminate
      | reflexivity].
Defined.

Lemma format_some_inv (config : Config) (m : Message) (item : string) :
  _format_message config m = Some item ->
  is_text_message m = true /\ message_text m <> "".
Proof.
  unfold _format_message. destruct (is_text_message m); [|discriminate].
  cbn [negb]. destruct (String.eqb_spec (message_text m) ""); [discriminate|].
  intros _. split; [reflexivity | assumption].
Qed.

(** C3: [_format_message] gives an item only for a text message with a
    non-empty body.  The item is the body (cut to the length limit) with
    every match of [http\S+] replaced by "[link]", so that none is left,
    after the author name and " says: " when user names are on.  A message
    of another kind gives no item, whatever its text.  With user names on
    and a queue of 50, the three messages A: hi, B: http://x.y/z check
    this, C: (empty) leave exactly "A says: hi" and "B says: [link] check
    this" in the queue. *)
Theorem format_message_item (config : Config) (m : Message) :
  (forall item, _format_message config m = Some item ->
     is_text_message m = true /\ message_text m <> "" /\ item <> "")
  /\ (is_text_message m = true -> message_text m <> "" ->
      exists body,
        body = redact (if max_message_length config <? Str.len (message_text m)
                       then Str.slice_to (message_text m) (max_message_length config)
                            ++ "..."
                       else message_text m)
        /\ Str.has_url body = false
        /\ (include_username config = true ->
            _format_message config m = Some (author_name m ++ " says: " ++ body))
        /\ (include_username config = false ->
            _format_message config m = Some body))
  /\ (forall s n, Str.url_pattern s = Some n ->
        redact s = "[link]" ++ redact (Str.drop n s))
  /\ (forall c r, Str.url_pattern (String c r) = None ->
        redact (String c r) = String c (redact r))
  /\ (is_text_message m = false -> _format_message config m = None)
  /\ Queue.items
       (ChatReader.message_queue
          (ChatReader._run (default_config "https://youtu.be/x")
             (Some [ChatReader.quiet (text_msg "A" "hi");
                    ChatReader.quiet (text_msg "B" "http://x.y/z check this");
                    ChatReader.quiet (text_msg "C" "")])
             (ChatReader.init (default_config "https://youtu.be/x"))))
     = ["A says: hi"; "B says: [link] check this"].
Proof.
  split; [|split; [|split; [|split; [|split]]]].
  - intros item H. destruct (format_some_inv _ _ _ H) as [Hk Ht].
    repeat split; try assumption.
    rewrite format_text_message in H by assumption. injection H as <-.
    apply append_not_nil_r, redact_not_nil.
    destruct (max_message_length config <? Str.len (message_text m));
      [apply append_not_nil_r; discriminate | exact Ht].
  - intros Hk Ht. eexists. split; [reflexivity|].
    split; [apply redact_url_free|].
    split; intros Hu; rewrite format_text_message by assumption;
      unfold says; rewrite Hu; [now rewrite append_assoc | reflexivity].
  - exact redact_match.
  - exact redact_cons.
  - intros Hk. unfold _format_message. now rewrite Hk.
  - reflexivity.
Qed.

Lemma format_message_item_witness :
  _format_message (default_config "https://youtu.be/x")
    (text_msg "B" "http://x.y/z check this")
  = Some "B says: [link] check this"
  /\ _format_message (default_config "https://youtu.be/x")
       {| message_type := Some "system_event";
          author := Some {| name := Some "B" |};
          message := Some "B joined" |} = None.
Proof.
  split.
  - destruct (format_message_item (default_config "https://youtu.be/x")
                (text_msg "B" "http://x.y/z check this"))
      as (_ & H & _).
    destruct (H eq_refl ltac:(discriminate)) as (body & -> & _ & Hon & _).
    exact (Hon eq_refl).
  - apply (format_message_item (default_config "https://youtu.be/x")
             {| message_type := Some "system_event";
                author := Some {| name := Some "B" |};
                message := Some "B joined" |}).
    reflexivity.
Defined.

(** ** The bounded queue *)

Section QueueFacts.

Import ChatReader.

Lemma full_iff (q : Queue.t) :
  1 <= Queue.maxsize q ->
  (Queue.full q = true <-> (Z.to_nat (Queue.maxsize q) <= length (Queue.items q))%nat).
Proof.
  intros H. unfold Queue.full, Queue.qsize.
  rewrite andb_true_iff, Z.ltb_lt, Z.leb_le. lia.
Qed.

Lemma push_maxsize (freed : bool) (item : string) (st : state) :
  Queue.maxsize (message_queue (push freed item st))
  = Queue.maxsize (message_queue st).
Proof.
  unfold push, Queue.put, Queue.after_get, Queue._get.
  destruct (Queue.full (message_queue st)), freed; try reflexivity.
  destruct (Queue.items (message_queue st)); reflexivity.
Qed.

(** A push that finds the queue full and no slot freed changes nothing. *)
Lemma push_full (item : string) (st : state) :
  Queue.full (message_queue st) = true -> push false item st = st.
Proof. intros H. unfold push, Queue.put. now rewrite H. Qed.

Lemma push_free (freed : bool) (item : string) (st : state) :
  Queue.full (message_queue st) = false ->
  Queue.items (message_queue (push freed item st))
  = (Queue.items (message_queue st) ++ [item])%list.
Proof. intros H. unfold push, Queue.put. now rewrite H. Qed.

(** No push takes the queue above its capacity. *)
Lemma push_bounded (freed : bool) (item : string) (st : state) :
  1 <= Queue.maxsize (message_queue st) ->
  Queue.qsize (message_queue st) <= Queue.maxsize (message_queue st) ->
  Queue.qsize (message_queue (push freed item st))
  <= Queue.maxsize (message_queue st).
Proof.
  intros Hc Hle. unfold push, Queue.put, Queue.after_get, Queue._get.
  destruct (Queue.full (message_queue st)) eqn:Hf.
  - destruct freed; [|exact Hle].
    unfold Queue.qsize in *.
    destruct (Queue.items (message_queue st)) as [|x rest] eqn:E; cbn;
      rewrite ?E, ?length_app; cbn in *; lia.
  - unfold Queue.full in Hf. apply andb_false_iff in Hf.
    rewrite Z.ltb_ge, Z.leb_gt in Hf.
    unfold Queue.qsize in *. cbn. rewrite length_app. cbn. lia.
Qed.

(** Pushes without gets keep the oldest items, in order. *)
Lemma push_all_items (pushed : list string) (st : state) :
  1 <= Queue.maxsize (message_queue st) ->
  Queue.qsize (message_queue st) <= Queue.maxsize (message_queue st) ->
  Queue.items (message_queue (push_all pushed st))
  = firstn (Z.to_nat (Queue.maxsize (message_queue st)))
           (Queue.items (message_queue st) ++ pushed)%list.
Proof.
  revert st; induction pushed as [|x xs IH]; intros st Hc Hle.
  - cbn. rewrite app_nil_r, firstn_all2; [reflexivity|].
    unfold Queue.qsize in Hle. lia.
  - change (push_all (x :: xs) st) with (push_all xs (push false x st)).
    destruct (Queue.full (message_queue st)) eqn:Hf.
    + rewrite push_full by exact Hf. rewrite IH by assumption.
      apply full_iff in Hf; [|exact Hc].
      rewrite !firstn_app.
      replace (Z.to_nat (Queue.maxsize (message_queue st))
               - length (Queue.items (message_queue st)))%nat with O by lia.
      reflexivity.
    + pose proof (push_bounded false x st Hc Hle) as Hb.
      rewrite IH; rewrite push_maxsize; try assumption.
      rewrite push_free by exact Hf. now rewrite <- app_assoc.
Qed.

Lemma env_before_quiet (m : Message) (st : state) :
  env_before (quiet m) st = st.
Proof. destruct st as [q sd n]. unfold env_before. cbn. now rewrite orb_false_r. Qed.

(** While the other threads are idle the loop pushes the formatted items
    one after the other. *)
Lemma read_chat_quiet (config : Config) (messages : list Message) (st : state) :
  shutdown_event st = false ->
  read_chat config (map quiet messages) st
  = push_all (formatted config messages) st.
Proof.
  revert st; induction messages as [|m ms IH]; intros st Hsd; [reflexivity|].
  cbn [map read_chat]. rewrite env_before_quiet, Hsd.
  unfold formatted. cbn [flat_map]. fold (formatted config ms).
  unfold push_all. rewrite fold_left_app. fold (push_all (formatted config ms)).
  cbn [quiet msg get_during_put].
  destruct (_format_message config m) as [text|]; [|now apply IH].
  destruct (String.eqb text ""); [now apply IH|].
  cbn [fold_left]. apply IH.
  unfold push. now destruct (Queue.put (message_queue st) text false).
Qed.

End QueueFacts.

(** C1: from the empty queue of a valid configuration, with capacity C,
    N pushes without gets leave exactly the first min(N, C) pushed items,
    in order; after every prefix of the pushes the queue holds at most C
    items; and a push onto a full queue leaves the queue as it was: the
    new item is the one that is lost.  So the reader loop, run on a list
    of messages while the other threads are idle, leaves the first C of
    their formatted items in the queue. *)
Theorem pushes_keep_first (config : Config) (pushed : list string) :
  validate config = Ok tt ->
  let C := Z.to_nat (queue_max_size config) in
  let after items :=
    ChatReader.message_queue
      (ChatReader.push_all items (ChatReader.init config)) in
  Queue.items (after pushed) = firstn C pushed
  /\ length (Queue.items (after pushed)) = Nat.min (length pushed) C
  /\ (forall k, (length (Queue.items (after (firstn k pushed))) <= C)%nat)
  /\ (forall st item,
        Queue.full (ChatReader.message_queue st) = true ->
        ChatReader.push false item st = st)
  /\ (forall messages,
        Queue.items
          (ChatReader.message_queue
             (ChatReader._run config
                (Some (map ChatReader.quiet messages))
                (ChatReader.init config)))
        = firstn C (ChatReader.formatted config messages)).
Proof.
  intros Hv C after. apply validate_ok_iff in Hv.
  assert (Hitems : forall items, Queue.items (after items) = firstn C items).
  { intros items. unfold after.
    rewrite push_all_items; cbn; [reflexivity | lia | lia]. }
  repeat split.
  - apply Hitems.
  - rewrite Hitems, length_firstn. lia.
  - intros k. rewrite Hitems, length_firstn. lia.
  - intros st item. apply push_full.
  - intros messages. cbn [ChatReader._run].
    rewrite read_chat_quiet by reflexivity. apply Hitems.
Qed.

Lemma pushes_keep_first_witness :
  Queue.items
    (ChatReader.message_queue
       (ChatReader.push_all ["a"; "b"; "c"]
          (ChatReader.init (configure "https://youtu.be/x" 200 true 2))))
  = ["a"; "b"]
  /\ Queue.items
       (ChatReader.message_queue
          (ChatReader.push_all ["a"; "b"]
             (ChatReader.init (configure "https://youtu.be/x" 200 true 1))))
     = ["a"].
Proof.
  split.
  - apply (pushes_keep_first (configure "https://youtu.be/x" 200 true 2)
             ["a"; "b"; "c"]). reflexivity.
  - apply (pushes_keep_first (configure "https://youtu.be/x" 200 true 1)
             ["a"; "b"]). reflexivity.
Defined.

(** C2, as stated, fails: a put that finds the queue at capacity waits for
    up to the timeout, and when the consumer takes an item in that time
    the new item is delivered, not discarded. *)
Lemma push_at_capacity_can_deliver :
  Queue.full {| Queue.maxsize := 1; Queue.items := ["a"] |} = true
  /\ Queue.put {| Queue.maxsize := 1; Queue.items := ["a"] |} "b" true
     = Some {| Queue.maxsize := 1; Queue.items := ["b"] |}
  /\ ~ (forall q item freed,
          Queue.full q = true -> Queue.put q item freed = None).
Proof.
  split; [reflexivity|]. split; [reflexivity|].
  intros H.
  specialize (H {| Queue.maxsize := 1; Queue.items := ["a"] |} "b" true eq_refl).
  discriminate H.
Qed.

(** C2, amended: a put that finds the queue at capacity waits for at most
    the put timeout.  If the consumer takes nothing in that time, the put
    reports [queue.Full], the reader catches it, the queue and the message
    count are as before and the loop goes on with the next message.  If
    the consumer takes an item in that time, the new item is appended
    after the remaining ones. *)
Theorem push_at_capacity (config : Config) (st : ChatReader.state)
        (a : ChatReader.arrival) (rest : list ChatReader.arrival)
        (item : string) :
  Queue.full (ChatReader.message_queue st) = true ->
  (Queue.put (ChatReader.message_queue st) item false = None
   /\ ChatReader.push false item st = st)
  /\ (Queue.put (ChatReader.message_queue st) item true
      = Some (Queue._put (Queue.after_get (ChatReader.message_queue st)) item))
  /\ (ChatReader.gets_before a = O ->
      ChatReader.shutdown_before a = false ->
      ChatReader.get_during_put a = false ->
      ChatReader.shutdown_event st = false ->
      _format_message config (ChatReader.msg a) = Some item ->
      ChatReader.read_chat config (a :: rest) st
      = ChatReader.read_chat config rest st).
Proof.
  intros Hf. split; [|split].
  - split; [unfold Queue.put; now rewrite Hf | now apply push_full].
  - unfold Queue.put. now rewrite Hf.
  - intros Hg Hs Hp Hsd Hm.
    assert (He : ChatReader.env_before a st = st).
    { unfold ChatReader.env_before. rewrite Hg, Hs.
      destruct st as [q sd n]. cbn in *. now rewrite orb_false_r. }
    cbn [ChatReader.read_chat]. rewrite He, Hsd, Hm, Hp.
    rewrite push_full by exact Hf.
    now destruct (String.eqb item "").
Qed.

Lemma push_at_capacity_witness :
  ChatReader.read_chat (configure "https://youtu.be/x" 200 true 1)
    [ChatReader.quiet (text_msg "B" "second")]
    {| ChatReader.message_queue :=
         {| Queue.maxsize := 1; Queue.items := ["A says: first"] |};
       ChatReader.shutdown_event := false;
       ChatReader.message_count := 1 |}
  = {| ChatReader.message_queue :=
         {| Queue.maxsize := 1; Queue.items := ["A says: first"] |};
       ChatReader.shutdown_event := false;
       ChatReader.message_count := 1 |}.
Proof.
  apply (push_at_capacity (configure "https://youtu.be/x" 200 true 1)
           {| ChatReader.message_queue :=
                {| Queue.maxsize := 1; Queue.items := ["A says: first"] |};
              ChatReader.shutdown_event := false;
              ChatReader.message_count := 1 |}
           (ChatReader.quiet (text_msg "B" "second")) [] "B says: second");
    reflexivity.
Defined.

(** ** The command loop *)

(** Every way out of the command loop other than end of input has the
    shutdown event set. *)
Lemma exit_sets_shutdown (stdin : list Main.stdin_event) :
  forall (in_input : bool) (s s' : Main.signals) (why : Main.exit_reason),
    Main.control_loop in_input stdin s = Main.Exited why s' ->
    why <> Main.EndOfInput ->
    Main.shutdown_event s' = true.
Proof.
  induction stdin as [|e rest IH]; intros b s s' why H Hwhy; cbn in H.
  - destruct (negb b && Main.shutdown_event s) eqn:E; [|discriminate].
    injection H as <- <-. apply andb_true_iff in E. tauto.
  - destruct (negb b && Main.shutdown_event s) eqn:E.
    { injection H as <- <-. apply andb_true_iff in E. tauto. }
    destruct e as [l| | |].
    + destruct (String.eqb (Str.lower (Str.strip l)) "p"); [eauto|].
      destruct (String.eqb (Str.lower (Str.strip l)) "q"); [|eauto].
      injection H as <- <-. reflexivity.
    + injection H as <- <-. congruence.
    + eauto.
    + injection H as <- <-. reflexivity.
Qed.

(** C5 fails on end of input: when [input()] raises [EOFError] the loop is
    left by [break] with the shutdown event as it was, here unset, and
    [main] goes on to join both workers. *)
Theorem eof_leaves_shutdown_unset (rest : list Main.stdin_event) :
  Main.control_loop false (Main.Eof :: rest) Main.initial_signals
  = Main.Exited Main.EndOfInput Main.initial_signals
  /\ Main.shutdown_event Main.initial_signals = false
  /\ Main.main (default_config "https://youtu.be/x")
       [Main.Line "p"; Main.Line ""; Main.Eof]
     = Main.Exit 0 [Main.StartSpeaker; Main.StartReader;
                    Main.JoinReader false; Main.JoinSpeaker false]
  /\ Main.main (default_config "https://youtu.be/x") [Main.Line " Q "]
     = Main.Exit 0 [Main.StartSpeaker; Main.StartReader;
                    Main.JoinReader true; Main.JoinSpeaker true].
Proof. repeat split. Qed.

(** ** The speech worker *)

Section SpeakerFacts.

Import TTSSpeaker.

Lemma run_app (w : world) (tr1 tr2 : list event) :
  run w (tr1 ++ tr2) = run (run w tr1) tr2.
Proof. apply fold_left_app. Qed.

Lemma run_cons (w : world) (e : event) (tr : list event) :
  run w (e :: tr) = run (step w e) tr.
Proof. reflexivity. Qed.

Lemma inv_init (config : Config) : inv (init config).
Proof.
  unfold inv; cbn. repeat split; try discriminate; try congruence.
Qed.

Lemma inv_step (w : world) (e : event) : inv w -> inv (step w e).
Proof.
  destruct w as [q p sd rd l c D S cl].
  unfold inv. cbn. intros (Hcl & Hrd & Hsetup).
  destruct e as [ok| |item| | |]; destruct l; cbn in *; by_cases; fin.
Qed.

Lemma inv_run (tr : list event) (w : world) : inv w -> inv (run w tr).
Proof.
  revert w; induction tr as [|e tr IH]; intros w H; [exact H|].
  rewrite run_cons. apply IH, inv_step, H.
Qed.

(** The shutdown event is set only by a [Shutdown] event. *)
Lemma shutdown_step (w : world) (e : event) :
  shutdown_event (step w e) = true -> shutdown_event w = true \/ e = Shutdown.
Proof.
  destruct w as [q p sd rd l c D S cl].
  destruct e as [ok| |item| | |]; destruct l; cbn; by_cases; auto.
Qed.

Lemma shutdown_run (tr : list event) (w : world) :
  shutdown_event (run w tr) = true -> shutdown_event w = true \/ In Shutdown tr.
Proof.
  revert w; induction tr as [|e tr IH]; intros w H; [now left|].
  rewrite run_cons in H. destruct (IH _ H) as [H1|H1].
  - destruct (shutdown_step _ _ H1) as [H2| ->]; [now left | right; now left].
  - right; now right.
Qed.

(** Once stopped, the worker does nothing more. *)
Lemma stopped_run (tr : list event) (w : world) :
  at_pc w = Stopped ->
  at_pc (run w tr) = Stopped
  /\ dequeued (run w tr) = dequeued w
  /\ spoken (run w tr) = spoken w
  /\ ready_event (run w tr) = ready_event w.
Proof.
  revert w; induction tr as [|e tr IH]; intros w H; [now repeat split|].
  rewrite run_cons.
  assert (Hs : at_pc (step w e) = Stopped
               /\ dequeued (step w e) = dequeued w
               /\ spoken (step w e) = spoken w
               /\ ready_event (step w e) = ready_event w).
  { destruct w as [q p sd rd l c D S cl]. cbn in H. subst l.
    destruct e; cbn; by_cases; now repeat split. }
  destruct Hs as (H1 & H2 & H3 & H4).
  destruct (IH _ H1) as (H5 & H6 & H7 & H8).
  repeat split; congruence.
Qed.

(** The ready event is never cleared. *)
Lemma ready_run (tr : list event) (w : world) :
  ready_event w = true -> ready_event (run w tr) = true.
Proof.
  revert w; induction tr as [|e tr IH]; intros w H; [exact H|].
  rewrite run_cons. apply IH.
  destruct w as [q p sd rd l c D S cl]. cbn in H. subst rd.
  destruct e; destruct l; cbn; by_cases; reflexivity.
Qed.

(** Before its first step the worker is at [Setup], whatever the other
    threads do. *)
Lemma setup_waits (w : world) (e : event) :
  at_pc w = Setup -> is_worker e = false ->
  at_pc (step w e) = Setup
  /\ dequeued (step w e) = dequeued w
  /\ spoken (step w e) = spoken w
  /\ ready_event (step w e) = ready_event w.
Proof.
  intros H He. destruct w as [q p sd rd l c D S cl]. cbn in H. subst l.
  destruct e; try discriminate He; cbn; by_cases; now repeat split.
Qed.

(** Until its first step the worker is at [Setup]; that step decides. *)
Lemma setup_run (tr : list event) (w : world) :
  at_pc w = Setup ->
  match setup_outcome tr with
  | None =>
      at_pc (run w tr) = Setup
      /\ dequeued (run w tr) = dequeued w
      /\ spoken (run w tr) = spoken w
      /\ ready_event (run w tr) = ready_event w
  | Some false =>
      at_pc (run w tr) = Stopped
      /\ dequeued (run w tr) = dequeued w
      /\ spoken (run w tr) = spoken w
      /\ ready_event (run w tr) = true
  | Some true => ready_event (run w tr) = true
  end.
Proof.
  revert w; induction tr as [|e tr IH]; intros w H; [now repeat split|].
  rewrite run_cons.
  destruct (is_worker e) eqn:He.
  - destruct e as [ok| | | | |]; try discriminate He. cbn [setup_outcome].
    assert (Hs : step w (Worker ok) = setup ok w)
      by (cbn; unfold worker_step; now rewrite H).
    rewrite Hs. destruct ok.
    + now apply ready_run.
    + destruct (stopped_run tr (setup false w) eq_refl) as (H1 & H2 & H3 & H4).
      repeat split; assumption.
  - destruct (setup_waits w e H He) as (H1 & H2 & H3 & H4).
    specialize (IH _ H1).
    replace (setup_outcome (e :: tr)) with (setup_outcome tr)
      by (destruct e; [discriminate He | reflexivity ..]).
    destruct (setup_outcome tr) as [[|]|];
      [ exact IH
      | destruct IH as (?&?&?&?); repeat split; congruence
      | destruct IH as (?&?&?&?); repeat split; congruence ].
Qed.

(** C6, as stated, fails: the worker takes "a" from the queue, shutdown is
    set before the check of line 87, and the worker stops without having
    passed "a" to the speech device.  It fails without shutdown too: when
    [print] raises for "a" the worker goes back to the head of the loop
    and "a" was not passed to the speech device. *)
Lemma dequeued_item_dropped_at_shutdown :
  dequeued (run (init (default_config "https://youtu.be/x"))
              [Put "a"; Worker true; Worker true; Worker true; Worker true;
               Worker true; Worker false]) = ["a"]
  /\ spoken (run (init (default_config "https://youtu.be/x"))
               [Put "a"; Worker true; Worker true; Worker true; Worker true;
                Worker true; Worker false]) = []
  /\ at_pc (run (init (default_config "https://youtu.be/x"))
              [Put "a"; Worker true; Worker true; Worker true; Worker true;
               Worker true; Worker false]) = LoopHead
  /\
  at_pc (run (init (default_config "https://youtu.be/x"))
           [Put "a"; Worker true; Worker true; Worker true; Shutdown;
            Worker true; Worker true; Worker true]) = Stopped
  /\ dequeued (run (init (default_config "https://youtu.be/x"))
                 [Put "a"; Worker true; Worker true; Worker true; Shutdown;
                  Worker true; Worker true; Worker true]) = ["a"]
  /\ spoken (run (init (default_config "https://youtu.be/x"))
               [Put "a"; Worker true; Worker true; Worker true; Shutdown;
                Worker true; Worker true; Worker true]) = []
  /\ ~ (forall config tr x,
          In x (dequeued (run (init config) tr)) ->
          at_pc (run (init config) tr) = Stopped ->
          In x (spoken (run (init config) tr))).
Proof.
  split; [reflexivity|]. split; [reflexivity|]. split; [reflexivity|].
  split; [reflexivity|]. split; [reflexivity|]. split; [reflexivity|].
  intros H.
  apply (H (default_config "https://youtu.be/x")
           [Put "a"; Worker true; Worker true; Worker true; Shutdown;
            Worker true; Worker true; Worker true] "a");
    [now left | reflexivity].
Qed.

(** The queue loses nothing: what it accepted is what the worker took
    followed by what it still holds. *)
Lemma conserve_step (w : world) (e : event) :
  (dequeued (step w e) ++ Queue.items (message_queue (step w e)))%list
  = (dequeued w ++ Queue.items (message_queue w) ++ accepted w [e])%list.
Proof.
  destruct w as [q p sd rd l c D S cl].
  destruct e as [ok| |item| | |]; cbn.
  3: { unfold env_put, Queue.put; cbn. destruct (Queue.full q); cbn;
       now rewrite ?app_nil_r. }
  all: destruct l; cbn; rewrite ?app_nil_r; try reflexivity;
    unfold Queue._get; cbn;
    repeat match goal with
           | |- context [if ?b then _ else _] => destruct b; cbn
           end; try reflexivity.
  all: destruct (Queue.items q) as [|x rest] eqn:E; cbn; rewrite ?E;
    try reflexivity.
  now rewrite <- app_assoc.
Qed.

Lemma accepted_cons (w : world) (e : event) (tr : list event) :
  accepted w (e :: tr) = (accepted w [e] ++ accepted (step w e) tr)%list.
Proof.
  destruct e; cbn [accepted]; try reflexivity.
  destruct (Queue.full (message_queue w)); reflexivity.
Qed.

Lemma conserve_run (tr : list event) (w : world) :
  (dequeued (run w tr) ++ Queue.items (message_queue (run w tr)))%list
  = (dequeued w ++ Queue.items (message_queue w) ++ accepted w tr)%list.
Proof.
  revert w; induction tr as [|e tr IH]; intros w.
  - cbn. now rewrite app_nil_r.
  - rewrite run_cons, IH, accepted_cons.
    rewrite (app_assoc (dequeued (step w e))), conserve_step.
    now rewrite <- !app_assoc.
Qed.

Lemma handled_cons (w : world) (e : event) (tr : list event) :
  handled w (e :: tr) = (handled w [e] ++ handled (step w e) tr)%list.
Proof.
  cbn [handled]. destruct e; try reflexivity. now destruct (at_pc w).
Qed.

(** One event keeps the log in step with the worker. *)
Lemma logged_step (log : list (string * bool)) (w : world) (e : event) :
  (in_loop (at_pc w) = true -> client w = true) ->
  logged log w -> logged (log ++ handled w [e]) (step w e).
Proof.
  destruct w as [q p sd rd l c D S cl]. unfold logged. cbn.
  intros Hc (-> & Hd).
  destruct e as [ok| |item| | |]; destruct l; cbn in *;
    rewrite ?app_nil_r;
    try (specialize (Hc eq_refl); subst c);
    try destruct ok; cbn; by_cases;
    rewrite ?filter_app, ?map_app; cbn; rewrite ?app_nil_r;
    (split; [reflexivity|]); fin.
Qed.

Lemma logged_run (tr : list event) :
  forall (log : list (string * bool)) (w : world),
    inv w -> logged log w -> logged (log ++ handled w tr) (run w tr).
Proof.
  induction tr as [|e tr IH]; intros log w Hinv Hlog.
  - cbn. now rewrite app_nil_r.
  - rewrite run_cons, handled_cons, app_assoc.
    apply IH; [now apply inv_step|].
    apply logged_step; [apply Hinv | exact Hlog].
Qed.

(** An item is in the log as not printed only after a step that raised. *)
Lemma handled_failed (tr : list event) (w : world) (x : string) :
  In (x, false) (handled w tr) -> In (Worker false) tr.
Proof.
  revert w; induction tr as [|e tr IH]; intros w; [intros []|].
  cbn [handled].
  destruct e as [ok| | | | |]; try (intros H; right; exact (IH _ H)).
  destruct (at_pc w); try (intros H; right; exact (IH _ H)).
  intros [[= _ ->]|H]; [now left | right; exact (IH _ H)].
Qed.

Lemma filter_snd_all (log : list (string * bool)) :
  (forall x, ~ In (x, false) log) -> filter snd log = log.
Proof.
  induction log as [|[x b] log IH]; intros H; [reflexivity|].
  cbn. destruct b.
  - rewrite IH; [reflexivity|]. intros y Hy. apply (H y). now right.
  - exfalso. apply (H x). now left.
Qed.

(** C6, amended: at every moment the items the queue has accepted are, in
    order, the items the worker has taken followed by the items still in
    the queue.  The items the worker has taken are, in order, the items
    that reached lines 91-99, followed by the item it holds, if any; the
    one exception is a single last item that the worker dropped because it
    found shutdown set before speaking it.  Of the items that reached
    lines 91-99, those for which [print] returned were passed to the
    speech device and the others were skipped, the loop going on.  So, as
    long as shutdown has not been set and no step has raised, nothing
    taken from the queue is lost. *)
Theorem dequeued_items_are_spoken (config : Config) (tr : list event) :
  (dequeued (run (init config) tr)
   = (map fst (handled (init config) tr) ++ held (run (init config) tr))%list
   \/ (exists x,
         dequeued (run (init config) tr)
         = (map fst (handled (init config) tr) ++ [x])%list
         /\ shutdown_event (run (init config) tr) = true
         /\ (at_pc (run (init config) tr) = Cleanup
             \/ at_pc (run (init config) tr) = Stopped)))
  /\ spoken (run (init config) tr)
     = map fst (filter snd (handled (init config) tr))
  /\ (~ In Shutdown tr ->
      dequeued (run (init config) tr)
      = (map fst (handled (init config) tr)
         ++ held (run (init config) tr))%list)
  /\ (~ In Shutdown tr -> ~ In (Worker false) tr ->
      dequeued (run (init config) tr)
      = (spoken (run (init config) tr) ++ held (run (init config) tr))%list)
  /\ (dequeued (run (init config) tr)
      ++ Queue.items (message_queue (run (init config) tr)))%list
     = accepted (init config) tr.
Proof.
  assert (H0 : logged [] (init config)) by (split; [reflexivity | now left]).
  pose proof (logged_run tr [] _ (inv_init config) H0) as (Hs & Hd).
  cbn [app] in Hs, Hd.
  assert (Hkept : ~ In Shutdown tr ->
                  dequeued (run (init config) tr)
                  = (map fst (handled (init config) tr)
                     ++ held (run (init config) tr))%list).
  { intros Hno. destruct Hd as [Hd|(x & _ & Hsd & _)]; [exact Hd|].
    apply shutdown_run in Hsd.
    destruct Hsd as [Hsd|Hsd]; [discriminate | tauto]. }
  split; [exact Hd|]. split; [exact Hs|]. split; [exact Hkept|]. split.
  - intros Hno Hok. rewrite Hs, filter_snd_all; [now apply Hkept|].
    intros x Hx. apply Hok. now apply (handled_failed tr (init config) x).
  - now rewrite conserve_run.
Qed.

Lemma dequeued_items_are_spoken_witness :
  dequeued (run (init (default_config "https://youtu.be/x"))
              [Put "a"; Put "b"; Worker true; Worker true; Worker true;
               Worker true; Worker true; Worker true; Worker true;
               Worker true])
  = (spoken (run (init (default_config "https://youtu.be/x"))
               [Put "a"; Put "b"; Worker true; Worker true; Worker true;
                Worker true; Worker true; Worker true; Worker true;
                Worker true])
     ++ held (run (init (default_config "https://youtu.be/x"))
                [Put "a"; Put "b"; Worker true; Worker true; Worker true;
                 Worker true; Worker true; Worker true; Worker true;
                 Worker true]))%list.
Proof.
  apply (dequeued_items_are_spoken (default_config "https://youtu.be/x"));
    cbn; intros H; repeat (destruct H as [H|H]; [discriminate H|]); exact H.
Defined.

(** ** Shutdown at the pause gate *)

Lemma leaving_step (x : string) (said got : list string) (w : world) (e : event) :
  leaving x said got w ->
  leaving x said got (step w e)
  /\ (rank (at_pc (step w e)) <= rank (at_pc w))%nat.
Proof.
  destruct w as [q p sd rd l c D S cl]. unfold leaving. cbn.
  intros (-> & -> & -> & [[-> ->]|[->|[->|[->| ->]]]]);
    destruct e; cbn; by_cases; repeat split; auto 10.
Qed.

(** With shutdown set, each step of the worker past the wait takes it
    closer to [Stopped]. *)
Lemma leaving_worker (x : string) (said got : list string) (w : world) (ok : bool) :
  leaving x said got w ->
  (rank (at_pc w) <= 3)%nat ->
  (rank (at_pc (step w (Worker ok))) <= rank (at_pc w) - 1)%nat.
Proof.
  destruct w as [q p sd rd l c D S cl]. unfold leaving. cbn.
  intros (-> & -> & -> & [[-> ->]|[->|[->|[->| ->]]]]) Hr; cbn in *; lia.
Qed.

(** The expiry of the wait releases the worker. *)
Lemma leaving_timeout (x : string) (said got : list string) (w : world) :
  leaving x said got w -> (rank (at_pc (step w Timeout)) <= 3)%nat.
Proof.
  destruct w as [q p sd rd l c D S cl]. unfold leaving. cbn.
  intros (-> & -> & -> & [[-> ->]|[->|[->|[->| ->]]]]); cbn; lia.
Qed.

Lemma leaving_run (x : string) (said got : list string) (tr : list event) (w : world) :
  leaving x said got w -> leaving x said got (run w tr).
Proof.
  revert w; induction tr as [|e tr IH]; intros w H; [exact H|].
  rewrite run_cons. apply IH. now apply leaving_step.
Qed.

Lemma leaving_progress (x : string) (said got : list string) (tr : list event)
      (w : world) :
  leaving x said got w ->
  (rank (at_pc w) <= 3)%nat ->
  (rank (at_pc (run w tr)) <= rank (at_pc w) - worker_steps tr)%nat.
Proof.
  revert w; induction tr as [|e tr IH]; intros w H Hr.
  - cbn. lia.
  - rewrite run_cons.
    destruct (leaving_step _ _ _ _ e H) as [H' Hle].
    specialize (IH _ H' ltac:(lia)).
    destruct e as [ok| | | | |]; unfold worker_steps in *; cbn in *; try lia.
    pose proof (leaving_worker _ _ _ _ ok H Hr). cbn in *. lia.
Qed.

Lemma rank_stopped (l : pc) : rank l = O -> l = Stopped.
Proof. destruct l; cbn; congruence. Qed.

(** C7: the worker holds an item at the pause gate, pause is active, and
    shutdown is set.  Whatever happens next, nothing is passed to the
    speech device and nothing more is taken from the queue; and once the
    wait in progress has expired, three steps of the worker (lines 83, 87
    and the cleanup) take it to [Stopped]: it never waits again. *)
Theorem shutdown_at_pause_gate (w : world) (x : string) (tr : list event) :
  at_pc w = PauseWait x \/ at_pc w = PauseCheck x ->
  pause_event w = false ->
  spoken (run w (Shutdown :: tr)) = spoken w
  /\ dequeued (run w (Shutdown :: tr)) = dequeued w
  /\ (forall tr1 tr2,
        tr = (tr1 ++ Timeout :: tr2)%list ->
        (3 <= worker_steps tr2)%nat ->
        at_pc (run w (Shutdown :: tr)) = Stopped).
Proof.
  intros Hat Hp.
  assert (H0 : leaving x (spoken w) (dequeued w) (step w Shutdown)).
  { destruct w as [q p sd rd l c D S cl]. unfold leaving. cbn in *. subst p.
    repeat split. destruct Hat as [-> | ->]; auto. }
  rewrite run_cons.
  pose proof (leaving_run _ _ _ tr _ H0) as (_ & Hs & Hd & _).
  split; [exact Hs|]. split; [exact Hd|].
  intros tr1 tr2 -> Hsteps.
  rewrite run_app, run_cons.
  pose proof (leaving_run _ _ _ tr1 _ H0) as H1.
  destruct (leaving_step _ _ _ _ Timeout H1) as [H2 _].
  pose proof (leaving_timeout _ _ _ _ H1) as H3.
  pose proof (leaving_progress _ _ _ tr2 _ H2 H3) as H4.
  apply rank_stopped. lia.
Qed.

Lemma shutdown_at_pause_gate_witness :
  at_pc (run {| message_queue := {| Queue.maxsize := 50; Queue.items := ["b"; "c"] |};
                pause_event := false; shutdown_event := false;
                ready_event := true; at_pc := PauseWait "a"; client := true;
                dequeued := ["a"]; spoken := []; closed := false |}
           (Shutdown :: [Worker true; Put "d"] ++ Timeout
              :: [Worker true; Worker true; Worker true])) = Stopped
  /\ spoken (run {| message_queue := {| Queue.maxsize := 50; Queue.items := ["b"; "c"] |};
                    pause_event := false; shutdown_event := false;
                    ready_event := true; at_pc := PauseWait "a"; client := true;
                    dequeued := ["a"]; spoken := []; closed := false |}
               (Shutdown :: [Worker true; Put "d"] ++ Timeout
                  :: [Worker true; Worker true; Worker true])) = [].
Proof.
  destruct (shutdown_at_pause_gate
              {| message_queue := {| Queue.maxsize := 50; Queue.items := ["b"; "c"] |};
                 pause_event := false; shutdown_event := false;
                 ready_event := true; at_pc := PauseWait "a"; client := true;
                 dequeued := ["a"]; spoken := []; closed := false |}
              "a"
              ([Worker true; Put "d"] ++ Timeout
                 :: [Worker true; Worker true; Worker true])
              (or_introl eq_refl) eq_refl) as (Hs & _ & Hstop).
  split; [|exact Hs].
  apply (Hstop [Worker true; Put "d"] [Worker true; Worker true; Worker true]);
    [reflexivity | cbn; lia].
Defined.

(** ** Setup of the speech client *)

(** C9: the first step of the worker is the setup of the speech client.
    If it fails, the worker sets the ready event and is stopped from then
    on, having taken nothing from the queue and passed nothing to the
    speech device.  If it succeeds the ready event is set as well, and
    before that step the worker has taken nothing from the queue: in every
    reachable state outside [Setup] the ready event is set. *)
Theorem setup_failure_skips_loop (config : Config) (tr : list event) :
  (setup_outcome tr = Some false ->
   at_pc (run (init config) tr) = Stopped
   /\ ready_event (run (init config) tr) = true
   /\ dequeued (run (init config) tr) = []
   /\ spoken (run (init config) tr) = [])
  /\ (setup_outcome tr = Some true ->
      ready_event (run (init config) tr) = true)
  /\ (setup_outcome tr = None ->
      at_pc (run (init config) tr) = Setup
      /\ dequeued (run (init config) tr) = []
      /\ spoken (run (init config) tr) = [])
  /\ (in_loop (at_pc (run (init config) tr)) = true ->
      ready_event (run (init config) tr) = true
      /\ setup_outcome tr = Some true).
Proof.
  pose proof (setup_run tr (init config) eq_refl) as H.
  pose proof (inv_run tr _ (inv_init config)) as (_ & Hrd & _).
  split; [|split; [|split]].
  - intros E. rewrite E in H. cbn in H. tauto.
  - intros E. now rewrite E in H.
  - intros E. rewrite E in H. cbn in H. tauto.
  - intros Hin. split.
    + apply Hrd. intros E. rewrite E in Hin. discriminate.
    + destruct (setup_outcome tr) as [[|]|]; [reflexivity| |];
        destruct H as (E & _); rewrite E in Hin; discriminate.
Qed.

Lemma setup_failure_skips_loop_witness :
  at_pc (run (init (default_config "https://youtu.be/x"))
           [Put "a"; Worker false; Worker true; Timeout; Worker true]) = Stopped
  /\ ready_event (run (init (default_config "https://youtu.be/x"))
                    [Put "a"; Worker false; Worker true; Timeout; Worker true])
     = true
  /\ dequeued (run (init (default_config "https://youtu.be/x"))
                 [Put "a"; Worker false; Worker true; Timeout; Worker true]) = []
  /\ spoken (run (init (default_config "https://youtu.be/x"))
               [Put "a"; Worker false; Worker true; Timeout; Worker true]) = [].
Proof.
  apply (setup_failure_skips_loop (default_config "https://youtu.be/x")
           [Put "a"; Worker false; Worker true; Timeout; Worker true]).
  reflexivity.
Defined.

End SpeakerFacts.

(** ** The command line *)

Section CliFacts.

Import Re Cli.

Lemma strip_prefix_spec (p s r : string) :
  Str.strip_prefix p s = Some r <-> s = p ++ r.
Proof.
  revert s; induction p as [|a p IH]; intros s; cbn.
  - split; [now intros [= ->] | now intros ->].
  - destruct s as [|b s]; [split; discriminate|].
    destruct (Ascii.eqb_spec a b) as [->|Hne].
    + rewrite IH. split; [now intros -> | now intros [= ->]].
    + split; [discriminate | intros [= -> _]; congruence].
Qed.

Lemma more_spec (cls : ascii -> bool) (k : string -> bool) (s : string) :
  more cls k s = true <->
  exists m rest, s = m ++ rest /\ all cls m = true /\ k rest = true.
Proof.
  induction s as [|c r IH]; cbn.
  - split.
    + intros H. now exists "", "".
    + intros (m & rest & E & _ & Hk). destruct m; [|discriminate].
      cbn in E. now subst rest.
  - split.
    + intros H.
      assert (H' : (cls c = true /\ more cls k r = true) \/ k (String c r) = true).
      { destruct (cls c); [apply orb_true_iff in H; tauto | tauto]. }
      destruct H' as [[Hc Hm]|Hk].
      * apply IH in Hm. destruct Hm as (m & rest & -> & Hm & Hk).
        exists (String c m), rest. cbn. now rewrite Hc, Hm.
      * now exists "", (String c r).
    + intros (m & rest & E & Hm & Hk). destruct m as [|c' m]; cbn in *.
      * subst rest. rewrite Hk. destruct (cls c); [apply orb_true_r | reflexivity].
      * injection E as <- ->. apply andb_true_iff in Hm. destruct Hm as [Hc Hm].
        rewrite Hc. apply orb_true_iff. left. apply IH. eauto.
Qed.

(** The matcher finds a match exactly when there is one. *)
Lemma match_k_spec (r : regex) :
  forall (s : string) (k : string -> bool),
    match_k r s k = true <-> exists rest, lang r s rest /\ k rest = true.
Proof.
  induction r as [p|r IH|r1 IH1 r2 IH2|cls]; intros s k; cbn.
  - destruct (Str.strip_prefix p s) as [rest|] eqn:E.
    + apply strip_prefix_spec in E. split; [eauto|].
      intros (rest' & -> & Hk).
      assert (rest = rest').
      { clear Hk. induction p; cbn in E; [now symmetry | injection E; auto]. }
      now subst.
    + split; [discriminate|]. intros (rest & H & _).
      apply strip_prefix_spec in H. congruence.
  - rewrite orb_true_iff, IH. split.
    + intros [(rest & H & Hk)|Hk]; eauto.
    + intros (rest & [H| ->] & Hk); eauto.
  - rewrite IH1. split.
    + intros (mid & H1 & H2). apply IH2 in H2. destruct H2 as (rest & H2 & Hk).
      eauto.
    + intros (rest & (mid & H1 & H2) & Hk). exists mid. split; [exact H1|].
      apply IH2. eauto.
  - destruct s as [|c s].
    + split; [discriminate|]. intros (rest & (c & m & E & _) & _). discriminate.
    + rewrite andb_true_iff, more_spec. split.
      * intros (Hc & m & rest & -> & Hm & Hk). exists rest. split; [|exact Hk].
        now exists c, m.
      * intros (rest & (c' & m & E & Hc & Hm) & Hk). injection E as <- ->.
        split; [exact Hc|]. eauto.
Qed.

(** A match stays a match when the string goes on. *)
Lemma lang_app (r : regex) :
  forall s rest t, lang r s rest -> lang r (s ++ t) (rest ++ t).
Proof.
  induction r as [p|r IH|r1 IH1 r2 IH2|cls]; intros s rest t; cbn.
  - intros ->. now rewrite append_assoc.
  - intros [H| ->]; [left; now apply IH | now right].
  - intros (mid & H1 & H2). exists (mid ++ t). split; [now apply IH1 | now apply IH2].
  - intros (c & m & -> & Hc & Hm). exists c, m. cbn. now rewrite append_assoc.
Qed.

Lemma re_match_app (r : regex) (s t : string) :
  re_match r s = true -> re_match r (s ++ t) = true.
Proof.
  unfold re_match. rewrite !match_k_spec.
  intros (rest & H & _). exists (rest ++ t). split; [now apply lang_app | reflexivity].
Qed.

Lemma more_true (cls : ascii -> bool) (s : string) :
  more cls (fun _ => true) s = true.
Proof.
  induction s as [|c r IH]; cbn; [reflexivity|].
  destruct (cls c); [now rewrite IH | reflexivity].
Qed.

(** The URLs that [validate_youtube_url] lets through are those that start
    with http:// or https://, then youtube.com/watch?v=, youtube.com/live/
    (both with or without www.) or youtu.be/, then at least one word
    character or dash; what follows is not looked at, so every string that
    extends an accepted URL is accepted.  The accepted URL is returned as
    it is. *)
Theorem youtube_url_shape (url : string) :
  ((exists u, validate_youtube_url url = Accepted u) <->
   (exists start c rest,
      In start accepted_starts
      /\ url = start ++ String c rest
      /\ word_or_dash c = true))
  /\ (forall u, validate_youtube_url url = Accepted u -> u = url)
  /\ (forall u t,
        validate_youtube_url url = Accepted u ->
        validate_youtube_url (url ++ t) = Accepted (url ++ t)).
Proof.
  split; [|split].
  - split.
    + intros [u H]. unfold validate_youtube_url in H.
      destruct (existsb _ patterns) eqn:E; [|discriminate]. clear H.
      apply existsb_exists in E. destruct E as (pattern & Hin & Hm).
      unfold re_match in Hm. apply match_k_spec in Hm.
      destruct Hm as (rest & Hl & _).
      destruct Hin as [<-|[<-|[<-|[]]]]; cbn in Hl; take_apart;
        match goal with
        | Hc : word_or_dash ?c = true |- context [String ?c (?m ++ ?r)] =>
            first [ pick ltac:(idtac) c (m ++ r)
                  | pick ltac:(do 1 right) c (m ++ r)
                  | pick ltac:(do 2 right) c (m ++ r)
                  | pick ltac:(do 3 right) c (m ++ r)
                  | pick ltac:(do 4 right) c (m ++ r)
                  | pick ltac:(do 5 right) c (m ++ r)
                  | pick ltac:(do 6 right) c (m ++ r)
                  | pick ltac:(do 7 right) c (m ++ r)
                  | pick ltac:(do 8 right) c (m ++ r)
                  | pick ltac:(do 9 right) c (m ++ r) ]
        end.
    + intros (start & c & rest & Hin & -> & Hc).
      unfold validate_youtube_url, patterns, re_match, watch_pattern,
        short_pattern, live_pattern.
      cbn in Hin.
      repeat (destruct Hin as [<-|Hin];
              [cbn -[word_or_dash more]; rewrite Hc, more_true; cbn; eauto|]).
      destruct Hin.
  - intros u. unfold validate_youtube_url.
    destruct (existsb _ patterns); [now intros [= <-] | discriminate].
  - intros u t. unfold validate_youtube_url.
    destruct (existsb _ patterns) eqn:E; [|discriminate]. intros _.
    apply existsb_exists in E. destruct E as (pattern & Hin & Hm).
    assert (E' : existsb (fun pattern => re_match pattern (url ++ t)) patterns = true).
    { apply existsb_exists. exists pattern. split; [exact Hin|].
      now apply re_match_app. }
    now rewrite E'.
Qed.

Lemma youtube_url_shape_witness :
  validate_youtube_url "https://www.youtube.com/watch?v=dQw4w9WgXcQ&t=10s"
  = Accepted "https://www.youtube.com/watch?v=dQw4w9WgXcQ&t=10s".
Proof.
  destruct (youtube_url_shape "https://www.youtube.com/watch?v=dQw4w9WgXcQ")
    as (_ & _ & H).
  apply (H "https://www.youtube.com/watch?v=dQw4w9WgXcQ" "&t=10s").
  reflexivity.
Defined.

Lemma accepted_not_empty (url u : string) :
  validate_youtube_url url = Accepted u -> url <> "".
Proof. intros H ->. discriminate H. Qed.

Lemma main_exit_1 (config : Config) (stdin : list Main.stdin_event) :
  Main.main config stdin = Main.Exit 1 [] <-> validate config <> Ok tt.
Proof.
  unfold Main.main. destruct (validate config) as [[]|e].
  - split; [|congruence].
    destruct (Main.control_loop false stdin Main.initial_signals); discriminate.
  - split; [discriminate | reflexivity].
Qed.

(** For arguments whose URL went through [validate_youtube_url], the URL
    check of [Config.validate] cannot fail: [main] exits with code 1
    exactly when one of the five numeric options is out of range, the
    error raised is never the one about the URL, and the command line
    that gives only the URL passes validation. *)
Theorem parsed_url_passes_validation (args : Namespace)
        (stdin : list Main.stdin_event) :
  validate_youtube_url (url args) = Accepted (url args) ->
  (Main.main (config_of_args args) stdin = Main.Exit 1 [] <->
   (rate args < -100 \/ 100 < rate args
    \/ volume args < 0 \/ 100 < volume args
    \/ pitch args < -100 \/ 100 < pitch args
    \/ max_length args < 1
    \/ queue_size args < 1))
  /\ (forall e, validate (config_of_args args) = Raise e ->
                e <> ValueError "YouTube URL is required")
  /\ validate (config_of_args (default_args (url args))) = Ok tt.
Proof.
  intros Hurl. apply accepted_not_empty in Hurl.
  split; [|split].
  - rewrite main_exit_1.
    pose proof (validate_ok_iff (config_of_args args)) as Hok. cbn in Hok.
    split.
    + intros Hn.
      assert (Hnot : ~ (-100 <= rate args <= 100 /\ 0 <= volume args <= 100
                        /\ -100 <= pitch args <= 100 /\ 1 <= max_length args
                        /\ 1 <= queue_size args))
        by (intros Hall; apply Hn, Hok; tauto).
      lia.
    + intros Hbad Hv. apply Hok in Hv. lia.
  - intros e. unfold validate. cbn.
    apply String.eqb_neq in Hurl. rewrite Hurl.
    repeat match goal with
           | |- context [if ?b then _ else _] => destruct b
           end; intros [= <-]; discriminate.
  - apply validate_ok_iff. cbn. repeat split; (exact Hurl || lia).
Qed.

Lemma parsed_url_passes_validation_witness :
  Main.main
    (config_of_args
       {| url := "https://youtu.be/abc"; voice := "pico"; rate := 150;
          volume := 100; pitch := 0; max_length := 200; no_username := true;
          language := "en"; queue_size := 50; cookies := None |})
    [Main.Line "q"] = Main.Exit 1 [].
Proof.
  apply (parsed_url_passes_validation
           {| url := "https://youtu.be/abc"; voice := "pico"; rate := 150;
              volume := 100; pitch := 0; max_length := 200; no_username := true;
              language := "en"; queue_size := 50; cookies := None |}
           [Main.Line "q"] eq_refl).
  cbn. lia.
Defined.

End CliFacts.

(** ** More on the command loop *)

Lemma exit_sets_shutdown_witness :
  Main.control_loop false
    [Main.Line "x"; Main.Sigint; Main.Line "p"; Main.Line "q"]
    Main.initial_signals
  = Main.Exited Main.LoopCondition
      {| Main.pause_event := false; Main.shutdown_event := true |}
  /\ Main.shutdown_event
       {| Main.pause_event := false; Main.shutdown_event := true |} = true.
Proof.
  split; [reflexivity|].
  apply (exit_sets_shutdown
           [Main.Line "x"; Main.Sigint; Main.Line "p"; Main.Line "q"]
           false Main.initial_signals
           {| Main.pause_event := false; Main.shutdown_event := true |}
           Main.LoopCondition);
    [reflexivity | discriminate].
Defined.

(** The command loop never clears the shutdown event, and it changes the
    pause event only on a p command: when no line of the input is one, the
    pause event is left as it was. *)
Theorem loop_keeps_signals (stdin : list Main.stdin_event) (in_input : bool)
        (s : Main.signals) :
  match Main.control_loop in_input stdin s with
  | Main.Exited _ s' | Main.Blocked s' =>
      (Main.shutdown_event s = true -> Main.shutdown_event s' = true)
      /\ ((forall l, In (Main.Line l) stdin ->
                     String.eqb (Str.lower (Str.strip l)) "p" = false) ->
          Main.pause_event s' = Main.pause_event s)
  end.
Proof.
  revert in_input s; induction stdin as [|e rest IH]; intros b s;
    cbn [Main.control_loop].
  - destruct (negb b && Main.shutdown_event s); now split.
  - destruct (negb b && Main.shutdown_event s); [now split|].
    destruct e as [l| | |]; try (now split).
    + destruct (String.eqb (Str.lower (Str.strip l)) "p") eqn:Ep.
      * specialize (IH false (Main.toggle_pause s)).
        destruct (Main.control_loop false rest (Main.toggle_pause s));
          (split; [apply IH | intros Hp]);
          rewrite (Hp l) in Ep by (now left); discriminate.
      * destruct (String.eqb (Str.lower (Str.strip l)) "q"); [now split|].
        specialize (IH false s).
        destruct (Main.control_loop false rest s);
          (split; [apply IH | intros Hp; apply IH; intros l' Hl'; apply Hp;
                               now right]).
    + specialize (IH true (Main.set_shutdown s)).
      destruct (Main.control_loop true rest (Main.set_shutdown s));
        (split; [intros _; now apply IH
                | intros Hp; apply IH; intros l' Hl'; apply Hp; now right]).
Qed.

Lemma loop_keeps_signals_witness :
  match Main.control_loop false
          [Main.Line "hello"; Main.Line ""; Main.Sigint; Main.Line " x "]
          Main.initial_signals with
  | Main.Exited _ s' | Main.Blocked s' =>
      Main.pause_event s' = Main.pause_event Main.initial_signals
  end.
Proof.
  pose proof (loop_keeps_signals
                [Main.Line "hello"; Main.Line ""; Main.Sigint; Main.Line " x "]
                false Main.initial_signals) as H.
  destruct (Main.control_loop false
              [Main.Line "hello"; Main.Line ""; Main.Sigint; Main.Line " x "]
              Main.initial_signals) as [why s'|s'];
    apply H;
    intros l [[= <-]|[[= <-]|[[=]|[[= <-]|[]]]]]; reflexivity.
Defined.

Lemma loop_in_input (n : nat) (tail : list Main.stdin_event) (s : Main.signals) :
  Main.control_loop true (repeat Main.Sigint n ++ tail) (Main.set_shutdown s)
  = Main.control_loop true tail (Main.set_shutdown s).
Proof.
  induction n as [|n IH]; [reflexivity|].
  cbn [repeat app Main.control_loop]. cbn [negb andb]. exact IH.
Qed.

(** Ctrl+C sets the shutdown event but does not end the command loop: the
    main thread stays in [input()].  The loop ends when the next line
    arrives, after the command on that line has had its effect, and
    nothing after that line is read. *)
Theorem interrupt_waits_for_input (n : nat) (s : Main.signals) :
  Main.shutdown_event s = false ->
  Main.control_loop false (repeat Main.Sigint (S n)) s
  = Main.Blocked (Main.set_shutdown s)
  /\ (forall l rest,
        Main.control_loop false (repeat Main.Sigint (S n) ++ Main.Line l :: rest) s
        = if String.eqb (Str.lower (Str.strip l)) "p"
          then Main.Exited Main.LoopCondition
                 (Main.set_shutdown (Main.toggle_pause s))
          else if String.eqb (Str.lower (Str.strip l)) "q"
               then Main.Exited Main.Quit (Main.set_shutdown s)
               else Main.Exited Main.LoopCondition (Main.set_shutdown s)).
Proof.
  intros Hs. split.
  - cbn [repeat Main.control_loop]. rewrite Hs. cbn [negb andb].
    rewrite <- (app_nil_r (repeat Main.Sigint n)), loop_in_input. reflexivity.
  - intros l rest.
    cbn [repeat app Main.control_loop]. rewrite Hs. cbn [negb andb].
    rewrite loop_in_input. cbn [Main.control_loop negb andb].
    destruct (String.eqb (Str.lower (Str.strip l)) "p").
    + destruct rest; reflexivity.
    + destruct (String.eqb (Str.lower (Str.strip l)) "q"); [reflexivity|].
      destruct rest; reflexivity.
Qed.

Lemma interrupt_waits_for_input_witness :
  Main.control_loop false [Main.Sigint; Main.Sigint; Main.Line "P"; Main.Eof]
    Main.initial_signals
  = Main.Exited Main.LoopCondition
      {| Main.pause_event := false; Main.shutdown_event := true |}.
Proof.
  destruct (interrupt_waits_for_input 1 Main.initial_signals eq_refl) as [_ H].
  exact (H "P" [Main.Eof]).
Defined.

(** ** More on the reader thread *)

Section ReaderFacts.

Import ChatReader.

Lemma after_get_maxsize (q : Queue.t) :
  Queue.maxsize (Queue.after_get q) = Queue.maxsize q.
Proof.
  unfold Queue.after_get, Queue._get. now destruct (Queue.items q).
Qed.

Lemma after_get_qsize (q : Queue.t) :
  Queue.qsize (Queue.after_get q) <= Queue.qsize q.
Proof.
  unfold Queue.after_get, Queue._get, Queue.qsize.
  destruct (Queue.items q) eqn:E; cbn; rewrite ?E; cbn; lia.
Qed.

Lemma after_get_items (q : Queue.t) (x : string) :
  In x (Queue.items (Queue.after_get q)) -> In x (Queue.items q).
Proof.
  unfold Queue.after_get, Queue._get.
  destruct (Queue.items q) eqn:E; cbn; rewrite ?E; cbn; auto.
Qed.

Lemma gets_keep (n : nat) (q : Queue.t) :
  Queue.maxsize (Nat.iter n Queue.after_get q) = Queue.maxsize q
  /\ Queue.qsize (Nat.iter n Queue.after_get q) <= Queue.qsize q
  /\ (forall x, In x (Queue.items (Nat.iter n Queue.after_get q)) ->
                In x (Queue.items q)).
Proof.
  induction n as [|n (IH1 & IH2 & IH3)]; [cbn; repeat split; auto; lia|].
  rewrite Nat.iter_succ, after_get_maxsize.
  pose proof (after_get_qsize (Nat.iter n Queue.after_get q)).
  split; [assumption|]. split; [lia|].
  intros x Hx. now apply IH3, after_get_items.
Qed.

(** Whatever the consumer does meanwhile, the reader loop leaves the
    capacity of the queue as it is and never takes the queue above it. *)
Theorem reader_keeps_bound (config : Config) (chat : list arrival) (st : state) :
  1 <= Queue.maxsize (message_queue st) ->
  Queue.qsize (message_queue st) <= Queue.maxsize (message_queue st) ->
  Queue.maxsize (message_queue (read_chat config chat st))
  = Queue.maxsize (message_queue st)
  /\ Queue.qsize (message_queue (read_chat config chat st))
     <= Queue.maxsize (message_queue st).
Proof.
  revert st; induction chat as [|a rest IH]; intros st Hc Hle; [now split|].
  cbn [read_chat].
  destruct (gets_keep (gets_before a) (message_queue st)) as (Hm & Hq & _).
  set (st1 := env_before a st).
  assert (Hm1 : Queue.maxsize (message_queue st1) = Queue.maxsize (message_queue st))
    by exact Hm.
  assert (Hq1 : Queue.qsize (message_queue st1) <= Queue.maxsize (message_queue st1))
    by (rewrite Hm1; cbn; lia).
  assert (Hc1 : 1 <= Queue.maxsize (message_queue st1)) by (rewrite Hm1; exact Hc).
  destruct (shutdown_event st1); [split; [exact Hm1 | rewrite <- Hm1; exact Hq1]|].
  assert (Hrest : forall st2,
             Queue.maxsize (message_queue st2) = Queue.maxsize (message_queue st1) ->
             Queue.qsize (message_queue st2) <= Queue.maxsize (message_queue st1) ->
             Queue.maxsize (message_queue (read_chat config rest st2))
             = Queue.maxsize (message_queue st)
             /\ Queue.qsize (message_queue (read_chat config rest st2))
                <= Queue.maxsize (message_queue st)).
  { intros st2 H1 H2. rewrite <- Hm1, <- H1. apply IH; rewrite H1; assumption. }
  destruct (_format_message config (msg a)) as [text|]; [|now apply Hrest].
  destruct (String.eqb text ""); [now apply Hrest|].
  apply Hrest; [apply push_maxsize | now apply push_bounded].
Qed.

Lemma reader_keeps_bound_witness :
  Queue.qsize
    (message_queue
       (read_chat (configure "https://youtu.be/x" 200 true 2)
          [quiet (text_msg "A" "one"); quiet (text_msg "B" "two");
           {| gets_before := 1; shutdown_before := false;
              msg := text_msg "C" "three"; get_during_put := false |};
           {| gets_before := 0; shutdown_before := false;
              msg := text_msg "D" "four"; get_during_put := true |}]
          (init (configure "https://youtu.be/x" 200 true 2)))) <= 2.
Proof.
  apply (reader_keeps_bound (configure "https://youtu.be/x" 200 true 2)
           [quiet (text_msg "A" "one"); quiet (text_msg "B" "two");
            {| gets_before := 1; shutdown_before := false;
               msg := text_msg "C" "three"; get_during_put := false |};
            {| gets_before := 0; shutdown_before := false;
               msg := text_msg "D" "four"; get_during_put := true |}]
           (init (configure "https://youtu.be/x" 200 true 2)));
    cbn; lia.
Defined.

Lemma push_items (freed : bool) (text : string) (st : state) (x : string) :
  In x (Queue.items (message_queue (push freed text st))) ->
  In x (Queue.items (message_queue st)) \/ x = text.
Proof.
  unfold push, Queue.put.
  destruct (Queue.full (message_queue st)), freed; cbn; auto;
    rewrite in_app_iff; cbn; intros [H|[H|[]]]; auto.
  left. now apply after_get_items.
Qed.

(** The reader puts nothing into the queue but the formatted text of a
    message of the chat: an item found in the queue afterwards was there
    before or is what [_format_message] gives for one of the messages. *)
Theorem reader_queues_only_formatted (config : Config) (chat : list arrival)
        (st : state) (x : string) :
  In x (Queue.items (message_queue (read_chat config chat st))) ->
  In x (Queue.items (message_queue st))
  \/ (exists a, In a chat /\ _format_message config (msg a) = Some x).
Proof.
  revert st; induction chat as [|a rest IH]; intros st; [now left|].
  cbn [read_chat].
  destruct (gets_keep (gets_before a) (message_queue st)) as (_ & _ & Hin).
  set (st1 := env_before a st).
  assert (Hst1 : forall y, In y (Queue.items (message_queue st1)) ->
                           In y (Queue.items (message_queue st)))
    by exact Hin.
  assert (Hrest : In x (Queue.items (message_queue (read_chat config rest st1))) ->
                  In x (Queue.items (message_queue st))
                  \/ (exists a0, In a0 (a :: rest)
                                 /\ _format_message config (msg a0) = Some x)).
  { intros H. destruct (IH _ H) as [H1|(a0 & Ha0 & Hf)]; [left; auto|].
    right. exists a0. split; [now right | exact Hf]. }
  destruct (shutdown_event st1); [left; auto|].
  destruct (_format_message config (msg a)) as [text|] eqn:Hf; [|exact Hrest].
  destruct (String.eqb text ""); [exact Hrest|].
  intros H. destruct (IH _ H) as [H1|(a0 & Ha0 & Hf0)].
  - destruct (push_items _ _ _ _ H1) as [H2| ->]; [left; auto|].
    right. exists a. split; [now left | exact Hf].
  - right. exists a0. split; [now right | exact Hf0].
Qed.

Lemma reader_queues_only_formatted_witness :
  In "B says: two" ["A says: one"]
  \/ (exists a, In a [quiet (text_msg "B" "two"); quiet (text_msg "C" "")]
                /\ _format_message (default_config "https://youtu.be/x") (msg a)
                   = Some "B says: two").
Proof.
  apply (reader_queues_only_formatted (default_config "https://youtu.be/x")
           [quiet (text_msg "B" "two"); quiet (text_msg "C" "")]
           {| message_queue := {| Queue.maxsize := 50; Queue.items := ["A says: one"] |};
              shutdown_event := false; message_count := 1 |}).
  cbn. right; left; reflexivity.
Defined.

Lemma push_shutdown (freed : bool) (text : string) (st : state) :
  shutdown_event (push freed text st) = shutdown_event st.
Proof.
  unfold push. now destruct (Queue.put (message_queue st) text freed).
Qed.

(** Once the reader sees the shutdown event set it leaves the loop: the
    message at hand and all later ones are neither formatted nor queued,
    and the state is the one reached before that message. *)
Theorem reader_stops_at_shutdown (config : Config) (pre post : list arrival)
        (a : arrival) (st : state) :
  shutdown_event st = false ->
  (forall b, In b pre -> shutdown_before b = false) ->
  shutdown_before a = true ->
  read_chat config (pre ++ a :: post) st
  = env_before a (read_chat config pre st).
Proof.
  revert st; induction pre as [|b pre IH]; intros st Hs Hpre Ha.
  - cbn [app read_chat]. unfold env_before at 1. cbn [shutdown_event].
    rewrite Ha, orb_true_r. reflexivity.
  - cbn [app read_chat].
    assert (Hb : shutdown_event (env_before b st) = false).
    { cbn. rewrite Hs, (Hpre b) by (now left). reflexivity. }
    rewrite Hb.
    assert (Hpre' : forall b0, In b0 pre -> shutdown_before b0 = false)
      by (intros b0 H0; apply Hpre; now right).
    destruct (_format_message config (msg b)) as [text|]; [|now apply IH].
    destruct (String.eqb text ""); [now apply IH|].
    apply IH; [now rewrite push_shutdown | assumption | assumption].
Qed.

Lemma reader_stops_at_shutdown_witness :
  Queue.items
    (message_queue
       (read_chat (default_config "https://youtu.be/x")
          ([quiet (text_msg "A" "one")]
           ++ {| gets_before := 0; shutdown_before := true;
                 msg := text_msg "B" "two"; get_during_put := false |}
           :: [quiet (text_msg "C" "three")])
          (init (default_config "https://youtu.be/x"))))
  = ["A says: one"].
Proof.
  rewrite (reader_stops_at_shutdown (default_config "https://youtu.be/x")
             [quiet (text_msg "A" "one")] [quiet (text_msg "C" "three")]
             {| gets_before := 0; shutdown_before := true;
                msg := text_msg "B" "two"; get_during_put := false |}
             (init (default_config "https://youtu.be/x")) eq_refl).
  - reflexivity.
  - intros b [<-|[]]. reflexivity.
  - reflexivity.
Defined.

Lemma push_count (text : string) (st : state) :
  (message_count (push false text st) + length (Queue.items (message_queue st))
   = message_count st + length (Queue.items (message_queue (push false text st))))%nat.
Proof.
  unfold push, Queue.put. destruct (Queue.full (message_queue st)); cbn; [lia|].
  rewrite length_app. cbn. lia.
Qed.

Lemma push_all_count (pushed : list string) (st : state) :
  (message_count (push_all pushed st) + length (Queue.items (message_queue st))
   = message_count st
     + length (Queue.items (message_queue (push_all pushed st))))%nat.
Proof.
  revert st; induction pushed as [|x xs IH]; intros st; [reflexivity|].
  change (push_all (x :: xs) st) with (push_all xs (push false x st)).
  pose proof (IH (push false x st)). pose proof (push_count x st). lia.
Qed.

(** While the other threads are idle, the message count of the reader is
    the number of items it has queued: the number of messages that format
    to an item, up to the capacity.  So the count is zero, and the reader
    reports that it received no message, exactly when no message of the
    chat formats to an item. *)
Theorem reader_counts_queued (config : Config) (messages : list Message) :
  validate config = Ok tt ->
  message_count (_run config (Some (map quiet messages)) (init config))
  = Nat.min (length (formatted config messages))
            (Z.to_nat (queue_max_size config))
  /\ (message_count (_run config (Some (map quiet messages)) (init config)) = O
      <-> formatted config messages = []).
Proof.
  intros Hv. apply validate_ok_iff in Hv.
  assert (Hcount :
            message_count (_run config (Some (map quiet messages)) (init config))
            = Nat.min (length (formatted config messages))
                      (Z.to_nat (queue_max_size config))).
  { cbn [_run]. rewrite read_chat_quiet by reflexivity.
    pose proof (push_all_count (formatted config messages) (init config)) as H.
    rewrite push_all_items in H by (cbn; lia).
    cbn in H. rewrite length_firstn, Nat.add_0_r in H. cbn.
    rewrite H. apply Nat.min_comm. }
  split; [exact Hcount|].
  rewrite Hcount. destruct (formatted config messages) as [|x xs]; cbn [length].
  - rewrite Nat.min_0_l. tauto.
  - split; [|discriminate]. intros H. exfalso. lia.
Qed.

Lemma reader_counts_queued_witness :
  message_count
    (_run (default_config "https://youtu.be/x")
       (Some (map quiet [text_msg "A" "hi"; text_msg "B" ""; text_msg "C" "yo"]))
       (init (default_config "https://youtu.be/x")))
  = Nat.min 2 50.
Proof.
  apply (reader_counts_queued (default_config "https://youtu.be/x")
           [text_msg "A" "hi"; text_msg "B" ""; text_msg "C" "yo"]).
  reflexivity.
Defined.

End ReaderFacts.

(** ** More on the speech worker *)

Section ScheduleFacts.

Import TTSSpeaker Schedule.

Lemma accepted_were_put (tr : list event) (w : world) (x : string) :
  In x (accepted w tr) -> In (Put x) tr.
Proof.
  revert w; induction tr as [|e tr IH]; intros w; [intros []|].
  destruct e as [ok| |item| | |]; cbn [accepted];
    try (intros H; right; now apply (IH _ H)).
  destruct (Queue.full (message_queue w)).
  - intros H; right; now apply (IH _ H).
  - intros [->|H]; [now left | right; now apply (IH _ H)].
Qed.

(** The worker handles the items in the order in which the queue accepted
    them, none twice and none left out: the items that reached lines
    91-99 are an initial part of what the queue accepted, and what was
    passed to the speech device is that part without the items for which
    [print] raised.  So when no step has raised, what was spoken is an
    initial part of what the queue accepted.  Each spoken item was put by
    the reader. *)
Theorem spoken_in_order (config : Config) (tr : list event) :
  (exists rest,
     accepted (init config) tr
     = (map fst (handled (init config) tr) ++ rest)%list)
  /\ spoken (run (init config) tr)
     = map fst (filter snd (handled (init config) tr))
  /\ (~ In (Worker false) tr ->
      exists rest,
        accepted (init config) tr
        = (spoken (run (init config) tr) ++ rest)%list)
  /\ (forall x, In x (spoken (run (init config) tr)) -> In (Put x) tr).
Proof.
  assert (H0 : logged [] (init config)) by (split; [reflexivity | now left]).
  pose proof (logged_run tr [] _ (inv_init config) H0) as (Hs & Hd).
  cbn [app] in Hs, Hd.
  pose proof (conserve_run tr (init config)) as Hcons. cbn in Hcons.
  assert (Hpre : exists rest,
             accepted (init config) tr
             = (map fst (handled (init config) tr) ++ rest)%list).
  { rewrite <- Hcons. destruct Hd as [->|(x & -> & _)];
      rewrite <- app_assoc; eauto. }
  split; [exact Hpre|]. split; [exact Hs|]. split.
  - intros Hok. rewrite Hs, filter_snd_all; [exact Hpre|].
    intros x Hx. apply Hok. now apply (handled_failed tr (init config) x).
  - intros x Hx. destruct Hpre as (rest & Hpre).
    apply (accepted_were_put tr (init config)). rewrite Hpre.
    apply in_or_app. left. rewrite Hs in Hx.
    apply in_map_iff in Hx. destruct Hx as ([y b] & <- & Hy).
    apply filter_In in Hy. destruct Hy as [Hy _].
    apply in_map_iff. now exists (y, b).
Qed.

Lemma spoken_in_order_witness :
  In (Put "b")
     [Put "a"; Put "b"; Worker true; Worker true; Worker true; Worker true;
      Worker true; Worker false; Worker true; Worker true; Worker true;
      Worker true; Worker true].
Proof.
  apply (proj2 (proj2 (proj2
           (spoken_in_order (default_config "https://youtu.be/x")
              [Put "a"; Put "b"; Worker true; Worker true; Worker true;
               Worker true; Worker true; Worker false; Worker true;
               Worker true; Worker true; Worker true; Worker true]))) "b").
  cbn. now left.
Defined.

Lemma paused_step (said got : list string) (w : world) (e : event) :
  e <> Resume -> paused said got w -> paused said got (step w e).
Proof.
  destruct w as [q p sd rd l c D S cl]. unfold paused. cbn.
  intros He (-> & -> & H).
  destruct e as [ok| |item| | |]; try congruence;
    destruct l; cbn in *; by_cases;
    repeat split; try tauto; try lia; try congruence;
    subst; rewrite ?length_app; cbn; lia.
Qed.

Lemma paused_run (said got : list string) (tr : list event) (w : world) :
  paused said got w -> ~ In Resume tr -> paused said got (run w tr).
Proof.
  revert w; induction tr as [|e tr IH]; intros w H0 Hno; [exact H0|].
  rewrite run_cons. apply IH.
  - apply paused_step; [|exact H0]. intros ->. apply Hno. now left.
  - intros Hin. apply Hno. now right.
Qed.

(** While pause is active nothing is passed to the speech device: from a
    state in which the worker has no item past the pause gate, and as
    long as nobody resumes, what was spoken stays as it is, and the worker
    takes at most one item from the queue, the one it holds at the gate. *)
Theorem paused_speaks_nothing (w : world) (tr : list event) :
  pause_event w = false ->
  (forall x, at_pc w <> ShutdownCheck x /\ at_pc w <> Speak x) ->
  ~ In Resume tr ->
  spoken (run w tr) = spoken w
  /\ (length (dequeued (run w tr)) <= S (length (dequeued w)))%nat.
Proof.
  intros Hp Hgate Hno.
  assert (H0 : paused (spoken w) (dequeued w) w).
  { unfold paused. repeat split; try assumption.
    destruct (at_pc w) eqn:E; try reflexivity; try lia.
    - exfalso. now apply (proj1 (Hgate text)).
    - exfalso. now apply (proj2 (Hgate text)). }
  pose proof (paused_run _ _ tr w H0 Hno) as (_ & Hs & Hd).
  split; [exact Hs|].
  destruct (at_pc (run w tr)); try lia; try (rewrite Hd; lia); tauto.
Qed.

Lemma paused_speaks_nothing_witness :
  spoken (run {| message_queue := {| Queue.maxsize := 50; Queue.items := ["a"; "b"] |};
                 pause_event := false; shutdown_event := false;
                 ready_event := true; at_pc := LoopHead; client := true;
                 dequeued := []; spoken := []; closed := false |}
            [Worker true; Worker true; Worker true; Timeout; Worker true;
             Put "c"; Worker true; Timeout; Worker true]) = [].
Proof.
  apply (paused_speaks_nothing
           {| message_queue := {| Queue.maxsize := 50; Queue.items := ["a"; "b"] |};
              pause_event := false; shutdown_event := false;
              ready_event := true; at_pc := LoopHead; client := true;
              dequeued := []; spoken := []; closed := false |}
           [Worker true; Worker true; Worker true; Timeout; Worker true;
            Put "c"; Worker true; Timeout; Worker true]).
  - reflexivity.
  - intros x. split; discriminate.
  - cbn. intros H. repeat (destruct H as [H|H]; [discriminate H|]). exact H.
Defined.

(** One turn of the loop: five steps handle the oldest item. *)
Lemma speak_one (w : world) (x : string) (xs : list string)
      (o1 o2 o3 o4 printed : bool) :
  at_pc w = LoopHead ->
  client w = true ->
  pause_event w = true ->
  shutdown_event w = false ->
  Queue.items (message_queue w) = x :: xs ->
  run w [Worker o1; Worker o2; Worker o3; Worker o4; Worker printed]
  = {| message_queue :=
         {| Queue.maxsize := Queue.maxsize (message_queue w); Queue.items := xs |};
       pause_event := true; shutdown_event := false;
       ready_event := ready_event w; at_pc := LoopHead; client := true;
       dequeued := dequeued w ++ [x];
       spoken := if printed then spoken w ++ [x] else spoken w;
       closed := closed w |}.
Proof.
  destruct w as [[m items] p sd rd l c D S cl]. cbn.
  intros -> -> -> -> ->. now destruct printed.
Qed.

(** When the worker is not paused and shutdown is not set, it takes the
    items of the queue one after the other, oldest first, in five steps
    each (lines 73, 77, 82, 87 and 91-99), and is back at the head of the
    loop with the queue empty.  It passes to the speech device the items
    for which [print] returns, in order: an item for which it raises is
    skipped and the later ones are still spoken.  When no step raises,
    all buffered items are spoken. *)
Theorem worker_drains_queue (buffered : list string) :
  forall (w : world) (oks : list bool),
    at_pc w = LoopHead ->
    client w = true ->
    pause_event w = true ->
    shutdown_event w = false ->
    Queue.items (message_queue w) = buffered ->
    length oks = (5 * length buffered)%nat ->
    spoken (run w (map Worker oks)) = (spoken w ++ passed_on buffered oks)%list
    /\ dequeued (run w (map Worker oks)) = (dequeued w ++ buffered)%list
    /\ Queue.items (message_queue (run w (map Worker oks))) = []
    /\ at_pc (run w (map Worker oks)) = LoopHead
    /\ (forallb (fun ok => ok) oks = true -> passed_on buffered oks = buffered).
Proof.
  induction buffered as [|x xs IH]; intros w oks Hat Hc Hp Hs Hq Hlen.
  - destruct oks; [|discriminate]. cbn. rewrite !app_nil_r. now repeat split.
  - destruct oks as [|o1 [|o2 [|o3 [|o4 [|printed later]]]]];
      try (cbn in Hlen; lia).
    change (map Worker (o1 :: o2 :: o3 :: o4 :: printed :: later))
      with ([Worker o1; Worker o2; Worker o3; Worker o4; Worker printed]
              ++ map Worker later)%list.
    rewrite run_app, (speak_one w x xs) by assumption.
    match goal with
    | |- context [run ?w1 (map Worker later)] =>
        destruct (IH w1 later eq_refl eq_refl eq_refl eq_refl eq_refl
                    ltac:(cbn in Hlen; lia)) as (H1 & H2 & H3 & H4 & H5)
    end.
    rewrite H1, H2, H3, H4. cbn [spoken dequeued passed_on].
    repeat split.
    + destruct printed; rewrite <- ?app_assoc; reflexivity.
    + now rewrite <- app_assoc.
    + cbn [forallb]. rewrite !andb_true_iff.
      intros (_ & _ & _ & _ & -> & Hall). now rewrite H5.
Qed.

Lemma worker_drains_queue_witness :
  spoken (run {| message_queue := {| Queue.maxsize := 50; Queue.items := ["a"; "b"] |};
                 pause_event := true; shutdown_event := false;
                 ready_event := true; at_pc := LoopHead; client := true;
                 dequeued := ["z"]; spoken := ["z"]; closed := false |}
            (map Worker [true; true; true; true; false;
                         true; true; true; true; true]))
  = ["z"; "b"].
Proof.
  apply (worker_drains_queue ["a"; "b"]
           {| message_queue := {| Queue.maxsize := 50; Queue.items := ["a"; "b"] |};
              pause_event := true; shutdown_event := false;
              ready_event := true; at_pc := LoopHead; client := true;
              dequeued := ["z"]; spoken := ["z"]; closed := false |}
           [true; true; true; true; false; true; true; true; true; true]);
    reflexivity.
Defined.

(** With shutdown set, no event takes the worker further from [Stopped];
    a step of the worker takes it closer unless it is blocked on a bounded
    wait (or stopped), and the expiry of the wait takes it closer when it
    is blocked. *)
Lemma distance_step (w : world) (e : event) :
  shutdown_event w = true ->
  shutdown_event (step w e) = true
  /\ (distance (step w e) <= distance w)%nat
  /\ (is_worker e = true ->
      (distance (step w e) < distance w)%nat
      \/ distance w = 0%nat \/ distance w = 4%nat \/ distance w = 7%nat)
  /\ (is_timeout e = true ->
      (distance (step w e) < distance w)%nat
      \/ (distance w <> 4%nat /\ distance w <> 7%nat)).
Proof.
  destruct w as [[m items] p sd rd l c D S cl]. cbn. intros ->.
  destruct e as [ok| |item| | |]; destruct l; destruct items as [|i0 items];
    unfold distance; cbn;
    unfold env_put, Queue.put, Queue._get, Queue.full; cbn;
    repeat match goal with
           | |- context [if ?b then _ else _] => destruct b; cbn
           end;
    repeat split; intros; try discriminate; try lia.
Qed.

Lemma distance_run (tr : list event) :
  forall (w : world) (bound : nat) (ran expired : bool),
    shutdown_event w = true ->
    (distance w <= bound)%nat ->
    (distance w = bound ->
     (ran = true -> bound = 0 \/ bound = 4 \/ bound = 7)%nat
     /\ (expired = true -> bound <> 4 /\ bound <> 7)%nat) ->
    (distance (run w tr) <= bound - rounds_from ran expired tr)%nat.
Proof.
  induction tr as [|e tr IH]; intros w bound ran expired Hs Hle Hflags.
  - cbn. lia.
  - rewrite run_cons. cbn [rounds_from].
    destruct (distance_step w e Hs) as (Hs' & Hmono & Hrun & Hexp).
    destruct ((ran || is_worker e) && (expired || is_timeout e)) eqn:Hround.
    + assert (Hcloser : (distance (step w e) <= bound - 1)%nat).
      { destruct (Nat.eq_dec (distance w) bound) as [Heq|Hne]; [|lia].
        destruct (Hflags Heq) as [Hran Hexpired].
        apply andb_true_iff in Hround. destruct Hround as [Hr He].
        destruct e; cbn in *;
          rewrite ?orb_false_r, ?orb_true_r in *;
          try (specialize (Hran Hr)); try (specialize (Hexpired He));
          try (specialize (Hrun eq_refl)); try (specialize (Hexp eq_refl));
          try discriminate; lia. }
      specialize (IH (step w e) (distance (step w e)) false false Hs'
                     (Nat.le_refl _)).
      assert (distance (run (step w e) tr)
              <= distance (step w e) - rounds_from false false tr)%nat
        by (apply IH; intros _; split; discriminate).
      lia.
    + apply IH; [exact Hs' | lia |].
      intros Heq. assert (Hw : distance w = bound) by lia.
      destruct (Hflags Hw) as [Hran Hexpired].
      split; intros Hflag; apply orb_true_iff in Hflag;
        destruct Hflag as [Hflag|Hflag]; auto.
      * specialize (Hrun Hflag). lia.
      * specialize (Hexp Hflag). lia.
Qed.

(** Once shutdown is set the worker stops, wherever it is in [_run]: each
    round in which the worker runs and a bounded wait expires takes it at
    least one step closer to [Stopped], and after seven rounds at the most
    it is stopped. *)
Theorem shutdown_stops_worker (w : world) (tr : list event) :
  shutdown_event w = true ->
  (distance (run w tr) <= distance w - rounds tr)%nat
  /\ ((7 <= rounds tr)%nat -> at_pc (run w tr) = Stopped).
Proof.
  intros Hs.
  assert (H : (distance (run w tr) <= distance w - rounds tr)%nat).
  { apply distance_run; [exact Hs | lia |]. intros _. split; discriminate. }
  split; [exact H|].
  intros Hr.
  assert (Hmax : (distance w <= 7)%nat).
  { unfold distance. destruct (at_pc w); try lia.
    - destruct (Queue.items (message_queue w)); lia.
    - destruct (pause_event w); lia. }
  assert (H0 : distance (run w tr) = 0%nat) by lia.
  unfold distance in H0. destruct (at_pc (run w tr)); try discriminate.
  - destruct (Queue.items (message_queue (run w tr))); discriminate.
  - destruct (pause_event (run w tr)); discriminate.
  - reflexivity.
Qed.

Lemma shutdown_stops_worker_witness :
  (distance (run {| message_queue := {| Queue.maxsize := 50; Queue.items := [] |};
                    pause_event := false; shutdown_event := true;
                    ready_event := true; at_pc := Get; client := true;
                    dequeued := []; spoken := []; closed := false |}
               [Worker true; Put "a"; Timeout; Worker true; Timeout;
                Worker true; Timeout; Worker true; Timeout])
   <= 7 - 4)%nat.
Proof.
  apply (shutdown_stops_worker
           {| message_queue := {| Queue.maxsize := 50; Queue.items := [] |};
              pause_event := false; shutdown_event := true;
              ready_event := true; at_pc := Get; client := true;
              dequeued := []; spoken := []; closed := false |}
           [Worker true; Put "a"; Timeout; Worker true; Timeout;
            Worker true; Timeout; Worker true; Timeout]).
  reflexivity.
Defined.

Lemma stopped_closed (tr : list event) (w : world) :
  at_pc w = Stopped ->
  at_pc (run w tr) = Stopped /\ closed (run w tr) = closed w.
Proof.
  revert w; induction tr as [|e tr IH]; intros w H; [now split|].
  rewrite run_cons.
  assert (Hs : at_pc (step w e) = Stopped /\ closed (step w e) = closed w).
  { destruct w as [q p sd rd l c D S cl]. cbn in H. subst l.
    destruct e; cbn; by_cases; now split. }
  destruct Hs as [H1 H2]. destruct (IH _ H1) as [H3 H4].
  split; congruence.
Qed.

(** After a successful setup the client stays open until the cleanup,
    and the cleanup closes it exactly when [cancel()] returns. *)
Lemma working_run (tr : list event) :
  forall w,
    working w ->
    match cleanup_outcome w tr with
    | Some ok => at_pc (run w tr) = Stopped /\ closed (run w tr) = ok
    | None => working (run w tr)
    end.
Proof.
  induction tr as [|e tr IH]; intros w Hw; [exact Hw|].
  rewrite run_cons. cbn [cleanup_outcome].
  assert (Hnext : (exists ok, e = Worker ok /\ at_pc w = Cleanup)
                  \/ (working (step w e)
                      /\ cleanup_outcome w (e :: tr)
                         = cleanup_outcome (step w e) tr)).
  { destruct w as [q p sd rd l c D S cl]. unfold working in *. cbn in *.
    destruct Hw as (-> & -> & Hl1 & Hl2).
    destruct e as [ok| |item| | |]; destruct l; cbn; try congruence;
      try (left; eexists; split; reflexivity);
      right; by_cases; repeat split; congruence. }
  destruct Hnext as [(ok & -> & Hat)|[Hw' Hc]].
  - rewrite Hat.
    assert (Hs : step w (Worker ok) = cleanup ok w)
      by (cbn; unfold worker_step; now rewrite Hat).
    rewrite Hs.
    destruct (stopped_closed tr (cleanup ok w) eq_refl) as [H1 H2].
    split; [exact H1|]. rewrite H2. cbn.
    destruct Hw as (-> & _). apply andb_true_r.
  - cbn [cleanup_outcome] in Hc. rewrite Hc. now apply IH.
Qed.

Lemma cleanup_outcome_stopped (tr : list event) (w : world) :
  at_pc w = Stopped -> cleanup_outcome w tr = None.
Proof.
  revert w; induction tr as [|e tr IH]; intros w H; [reflexivity|].
  cbn [cleanup_outcome].
  assert (Hs : at_pc (step w e) = Stopped)
    by (apply (stopped_closed [e] w H)).
  rewrite H. destruct e; now apply IH.
Qed.

Lemma setup_closed (tr : list event) (w : world) :
  at_pc w = Setup -> closed w = false ->
  match setup_outcome tr with
  | None => at_pc (run w tr) = Setup
  | Some true =>
      match cleanup_outcome w tr with
      | Some ok => at_pc (run w tr) = Stopped /\ closed (run w tr) = ok
      | None => working (run w tr)
      end
  | Some false =>
      at_pc (run w tr) = Stopped /\ closed (run w tr) = false
      /\ cleanup_outcome w tr = None
  end.
Proof.
  revert w; induction tr as [|e tr IH]; intros w Hat Hcl; [exact Hat|].
  rewrite run_cons.
  assert (Hc : cleanup_outcome w (e :: tr) = cleanup_outcome (step w e) tr)
    by (cbn [cleanup_outcome]; rewrite Hat; now destruct e).
  rewrite Hc.
  destruct (is_worker e) eqn:He.
  - destruct e as [ok| | | | |]; try discriminate He. cbn [setup_outcome].
    assert (Hs : step w (Worker ok) = setup ok w)
      by (cbn; unfold worker_step; now rewrite Hat).
    rewrite Hs. destruct ok.
    + apply working_run. unfold working. cbn.
      repeat split; (assumption || discriminate).
    + destruct (stopped_closed tr (setup false w) eq_refl) as [H1 H2].
      split; [exact H1|]. split; [now rewrite H2|].
      now apply cleanup_outcome_stopped.
  - replace (setup_outcome (e :: tr)) with (setup_outcome tr)
      by (destruct e; [discriminate He | reflexivity ..]).
    apply IH.
    + now apply setup_waits.
    + destruct w as [q p sd rd l c D S cl]. cbn in *. subst.
      destruct e; try discriminate He; cbn; by_cases; reflexivity.
Qed.

(** When the worker has stopped, [close()] has been called on the speech
    client exactly if the setup had succeeded and [cancel()] returned in
    the cleanup.  After a successful setup every way out of the loop goes
    through the cleanup, but [close()] is skipped when [cancel()] raises;
    after a failed setup the cleanup is not reached and [close()] is
    never called. *)
Theorem stopped_worker_closed_client (config : Config) (tr : list event) :
  at_pc (run (init config) tr) = Stopped ->
  (closed (run (init config) tr) = true <->
   setup_outcome tr = Some true
   /\ cleanup_outcome (init config) tr = Some true)
  /\ (setup_outcome tr = Some true ->
      exists ok, cleanup_outcome (init config) tr = Some ok
                 /\ closed (run (init config) tr) = ok)
  /\ (setup_outcome tr = Some false ->
      cleanup_outcome (init config) tr = None
      /\ closed (run (init config) tr) = false).
Proof.
  intros Hstop.
  pose proof (setup_closed tr (init config) eq_refl eq_refl) as H.
  destruct (setup_outcome tr) as [[|]|].
  - destruct (cleanup_outcome (init config) tr) as [ok|].
    + destruct H as [_ Hc]. rewrite Hc. split; [|split].
      * split; [now intros -> | now intros [_ [= ->]]].
      * intros _. now exists ok.
      * discriminate.
    + destruct H as (_ & _ & _ & H). congruence.
  - destruct H as (_ & Hc & Hn). rewrite Hc, Hn. split; [|split].
    + split; [discriminate | intros [H _]; discriminate H].
    + discriminate.
    + now split.
  - congruence.
Qed.

Lemma stopped_worker_closed_client_witness :
  closed (run (init (default_config "https://youtu.be/x"))
            [Worker true; Shutdown; Worker true; Worker true]) = true
  /\ closed (run (init (default_config "https://youtu.be/x"))
               [Worker true; Shutdown; Worker true; Worker false]) = false.
Proof.
  split.
  - apply (stopped_worker_closed_client (default_config "https://youtu.be/x")
             [Worker true; Shutdown; Worker true; Worker true] eq_refl).
    now split.
  - destruct (stopped_worker_closed_client (default_config "https://youtu.be/x")
                [Worker true; Shutdown; Worker true; Worker false] eq_refl)
      as (_ & H & _).
    destruct (H eq_refl) as (ok & [= <-] & Hc). exact Hc.
Defined.

End ScheduleFacts.

(** ** More on message formatting *)

Section FormatFacts.

Import Str.

Lemma length_append (s t : string) :
  String.length (s ++ t) = (String.length s + String.length t)%nat.
Proof. induction s as [|c r IH]; cbn; [reflexivity | now rewrite IH]. Qed.

Lemma nonspace_run_le (s : string) : (nonspace_run s <= String.length s)%nat.
Proof.
  induction s as [|c r IH]; cbn; [lia|]. destruct (isspace c); lia.
Qed.

Lemma url_pattern_bounds (s : string) (n : nat) :
  url_pattern s = Some n -> (5 <= n <= String.length s)%nat.
Proof.
  unfold url_pattern.
  destruct (strip_prefix "http" s) as [r|] eqn:E; [|discriminate].
  apply strip_prefix_spec in E. subst s.
  pose proof (nonspace_run_le r).
  destruct (nonspace_run r); [discriminate|].
  intros [= <-]. rewrite length_append. cbn. lia.
Qed.

(** The replacement makes a text longer by one character per URL at the
    most, and a URL has five characters at least. *)
Lemma re_sub_from_length (s : string) :
  forall skip,
    (5 * String.length (re_sub_from url_pattern "[link]" skip s)
     + 6 * Nat.min skip (String.length s)
     <= 6 * String.length s)%nat.
Proof.
  induction s as [|c r IH]; intros skip; [cbn; lia|].
  cbn [re_sub_from]. destruct skip as [|k].
  - destruct (url_pattern (String c r)) as [[|n]|] eqn:E.
    + specialize (IH O). cbn [String.length] in *. lia.
    + apply url_pattern_bounds in E. specialize (IH n).
      rewrite length_append. cbn [String.length] in *. lia.
    + specialize (IH O). cbn [String.length] in *. lia.
  - specialize (IH k). cbn [String.length]. lia.
Qed.

Lemma redact_length (s : string) :
  (5 * String.length (redact s) <= 6 * String.length s)%nat.
Proof.
  pose proof (re_sub_from_length s O). unfold redact, re_sub. lia.
Qed.

(** The length limit bounds the body of the item, up to what is added
    after the cut: the three dots, and one character for each URL that
    becomes "[link]".  The body has at most 6/5 (limit + 3) characters. *)
Theorem item_length_bound (config : Config) (m : Message) :
  is_text_message m = true ->
  message_text m <> "" ->
  0 <= max_message_length config ->
  exists body,
    _format_message config m = Some (says config m ++ body)
    /\ 5 * Str.len body <= 6 * (max_message_length config + 3).
Proof.
  intros Hk Ht Hmax. eexists. split; [now apply format_text_message|].
  pose proof (redact_length
                (if max_message_length config <? len (message_text m)
                 then slice_to (message_text m) (max_message_length config) ++ "..."
                 else message_text m)) as H.
  unfold len in *.
  destruct (Z.ltb_spec (max_message_length config)
              (Z.of_nat (String.length (message_text m)))) as [Hlt|Hge].
  - unfold slice_to in *.
    assert (Hneg : (max_message_length config <? 0) = false)
      by (apply Z.ltb_ge; exact Hmax).
    rewrite Hneg in *.
    rewrite length_append, substring_length in H by lia.
    cbn [String.length] in H. lia.
  - lia.
Qed.

Lemma item_length_bound_witness :
  exists body,
    _format_message (configure "https://youtu.be/x" 5 false 50)
      (text_msg "A" "httpx httpy") = Some (says (configure "https://youtu.be/x" 5 false 50)
                                             (text_msg "A" "httpx httpy") ++ body)
    /\ 5 * Str.len body <= 6 * (5 + 3).
Proof.
  apply (item_length_bound (configure "https://youtu.be/x" 5 false 50)
           (text_msg "A" "httpx httpy"));
    [reflexivity | discriminate | cbn; lia].
Defined.

Lemma space_not_url (c : ascii) (s : string) :
  isspace c = true -> url_pattern (String c s) = None.
Proof.
  intros Hc. unfold url_pattern. cbn [strip_prefix].
  destruct (Ascii.eqb_spec "h" c) as [<-|]; [discriminate Hc | reflexivity].
Qed.

Lemma nonspace_run_app_space (r : string) (c : ascii) (s : string) :
  isspace c = true -> nonspace_run (r ++ String c s) = nonspace_run r.
Proof.
  intros Hc. induction r as [|a r IH]; cbn; [now rewrite Hc|].
  destruct (isspace a); [reflexivity | now rewrite IH].
Qed.

Lemma strip_prefix_app_space (lit p : string) (c : ascii) (s : string) :
  Re.all (fun a => negb (isspace a)) lit = true ->
  isspace c = true ->
  strip_prefix lit (p ++ String c s)
  = match lit with
    | EmptyString => Some (p ++ String c s)
    | _ => match strip_prefix lit p with
           | Some r => Some (r ++ String c s)
           | None => None
           end
    end.
Proof.
  intros Hlit Hc. revert p; induction lit as [|a lit IH]; intros p; [reflexivity|].
  cbn in Hlit. apply andb_true_iff in Hlit. destruct Hlit as [Ha Hlit].
  destruct p as [|b p]; cbn [append strip_prefix].
  - destruct (Ascii.eqb_spec a c) as [->|]; [|reflexivity].
    rewrite Hc in Ha. discriminate.
  - destruct (Ascii.eqb a b); [|reflexivity].
    rewrite IH by exact Hlit. destruct lit; reflexivity.
Qed.

Lemma url_pattern_app_space (p : string) (c : ascii) (s : string) :
  isspace c = true -> url_pattern (p ++ String c s) = url_pattern p.
Proof.
  intros Hc. unfold url_pattern.
  rewrite strip_prefix_app_space by (reflexivity || exact Hc).
  destruct (strip_prefix "http" p) as [r|]; [|reflexivity].
  now rewrite nonspace_run_app_space.
Qed.

(** White space separates the URLs: the replacement works on each side
    of it by itself. *)
Lemma re_sub_from_app_space (c : ascii) (s : string) :
  isspace c = true ->
  forall p skip,
    (skip <= String.length p)%nat ->
    re_sub_from url_pattern "[link]" skip (p ++ String c s)
    = re_sub_from url_pattern "[link]" skip p ++ String c (redact s).
Proof.
  intros Hc. induction p as [|a p IH]; intros skip Hskip.
  - cbn in Hskip. replace skip with O by lia.
    cbn [append re_sub_from]. now rewrite space_not_url.
  - cbn [append re_sub_from]. destruct skip as [|k].
    + change (String a (p ++ String c s)) with (String a p ++ String c s).
      rewrite url_pattern_app_space by exact Hc.
      destruct (url_pattern (String a p)) as [[|n]|] eqn:E.
      * now rewrite IH by lia.
      * apply url_pattern_bounds in E. cbn in E.
        rewrite IH by lia. reflexivity.
      * now rewrite IH by lia.
    + apply IH. cbn in Hskip. lia.
Qed.

Lemma nonspace_run_dots (u : string) :
  nonspace_run u = String.length u ->
  nonspace_run (u ++ "...") = (String.length u + 3)%nat.
Proof.
  induction u as [|a u IH]; cbn; [reflexivity|].
  destruct (isspace a); [discriminate|]. intros [= H]. now rewrite IH.
Qed.

Lemma drop_all (s : string) : drop (String.length s) s = "".
Proof. induction s; cbn; auto. Qed.

(** When the cut falls inside a URL, the three dots become part of the
    URL and go with it: the item ends in "[link]" and shows no sign of
    having been cut. *)
Theorem cut_url_loses_ellipsis (config : Config) (m : Message)
        (pre u : string) (c : ascii) :
  is_text_message m = true ->
  0 <= max_message_length config < Str.len (message_text m) ->
  substring 0 (Z.to_nat (max_message_length config)) (message_text m)
  = pre ++ String c ("http" ++ u) ->
  isspace c = true ->
  nonspace_run u = String.length u ->
  _format_message config m
  = Some (says config m ++ redact pre ++ String c "[link]").
Proof.
  intros Hk [Hmax Hlen] Hcut Hc Hu.
  rewrite format_text_message; [|exact Hk|].
  2: { intros E. rewrite E in Hlen. cbn in Hlen. lia. }
  apply Z.ltb_lt in Hlen. rewrite Hlen.
  unfold slice_to. apply Z.ltb_ge in Hmax. rewrite Hmax, Hcut.
  rewrite append_assoc. cbn [append].
  unfold redact at 1, re_sub.
  rewrite re_sub_from_app_space by (exact Hc || lia).
  fold (re_sub url_pattern "[link]" pre). fold (redact pre).
  assert (Hurl : url_pattern (String "h" (String "t" (String "t" (String "p" (u ++ "...")))))
                 = Some (4 + (String.length u + 3))%nat).
  { unfold url_pattern. cbn [strip_prefix Ascii.eqb Bool.eqb].
    rewrite nonspace_run_dots by exact Hu.
    now replace (String.length u + 3)%nat with (S (String.length u + 2)) by lia. }
  rewrite (redact_match _ _ Hurl).
  replace (4 + (String.length u + 3))%nat
    with (String.length (String "h" (String "t" (String "t" (String "p" (u ++ "..."))))))
    by (cbn; rewrite length_append; cbn; lia).
  rewrite drop_all. reflexivity.
Qed.

Lemma cut_url_loses_ellipsis_witness :
  _format_message (configure "https://youtu.be/x" 10 true 50)
    (text_msg "B" "see http://example.com/page")
  = Some "B says: see [link]".
Proof.
  apply (cut_url_loses_ellipsis (configure "https://youtu.be/x" 10 true 50)
           (text_msg "B" "see http://example.com/page") "see" ":/" " ");
    [reflexivity | cbn; lia | reflexivity | reflexivity | reflexivity].
Defined.

End FormatFacts.
